(** * SMBIOS structure-table decoding (osquery, [smbios_utils.cpp])

    A shallow embedding of the structure walker [SMBIOSParser::tables], the
    field codec ([dmiToWord], [dmiToDWord], [toHexStr]), the string-table
    resolver [dmiString], the bit-field decoder [dmiBitFieldToStr] and the
    Memory Device decoder [genSMBIOSMemoryDevices], followed by the
    properties established about them. *)

From Stdlib Require Import ZArith Lia List Bool Ascii String.
From Stdlib Require Import Strings.Byte Sorting.Sorted.
From stdpp Require Import base decidable option list gmap strings fin_maps.

Local Open Scope Z_scope.

(** ** Outcomes

    The source reads raw memory through pointers and calls [std::map::at].
    Both can go wrong, so every operation returns an [outcome]. *)

Inductive fault : Type :=
  | OutOfBounds   (* a read outside the SMBIOS buffer: undefined behaviour *)
  | out_of_range  (* the exception thrown by [std::map::at] on a missing key *)
  | ShiftTooWide  (* [1 << i] with [i] at least the width of [int] *)
  | OutOfFuel.    (* the loop bound of the model was reached *)

Inductive outcome (A : Type) : Type :=
  | Done (a : A)
  | Fault (f : fault).

Arguments Done {A} a.
Arguments Fault {A} f.

#[global] Instance outcome_ret : MRet outcome := fun A a => Done a.
#[global] Instance outcome_bind : MBind outcome := fun A B k m =>
  match m with
  | Done a => k a
  | Fault f => Fault f
  end.
#[global] Instance outcome_fmap : FMap outcome := fun A B g m =>
  match m with
  | Done a => Done (g a)
  | Fault f => Fault f
  end.

(** ** Memory

    The SMBIOS buffer is a list of bytes; a pointer into it is an offset from
    its first byte.  [uint8_t] values are widened to [Z]. *)

Definition u8 (b : byte) : Z := Z.of_N (Byte.to_N b).

(** [address[offset]] *)
Definition peek (mem : list byte) (address offset : nat) : outcome Z :=
  match mem !! (address + offset)%nat with
  | Some b => Done (u8 b)
  | None => Fault OutOfBounds
  end.

(** ** Field codec *)

Definition dmiToWord (mem : list byte) (address offset : nat) : outcome Z :=
  hi ← peek mem address (offset + 1);
  lo ← peek mem address offset;
  Done (Z.lor (Z.shiftl hi 8) lo).

Definition dmiToDWord (mem : list byte) (address offset : nat) : outcome Z :=
  b3 ← peek mem address (offset + 3);
  b2 ← peek mem address (offset + 2);
  b1 ← peek mem address (offset + 1);
  b0 ← peek mem address offset;
  Done (Z.lor (Z.lor (Z.lor (Z.shiftl b3 24) (Z.shiftl b2 16)) (Z.shiftl b1 8)) b0).

Definition hex_digit (d : Z) : ascii :=
  match String.get (Z.to_nat d) "0123456789abcdef" with
  | Some c => c
  | None => "0"%char
  end.

(** The digits [std::hex] prints for a non-negative [num], most significant
    first; [fuel] bounds the number of digits. *)
Fixpoint hex_digits (fuel : nat) (num : Z) (acc : string) : string :=
  match fuel with
  | O => acc
  | S fuel' =>
      let acc' := String (hex_digit (num mod 16)) acc in
      if num / 16 =? 0 then acc' else hex_digits fuel' (num / 16) acc'
  end.

(** [std::setw(width) << std::setfill('0')]: pad on the left. *)
Fixpoint setfill0 (n : nat) (s : string) : string :=
  match n with
  | O => s
  | S n' => String "0" (setfill0 n' s)
  end.

Definition toHexStr (num : Z) (width : nat) : string :=
  let ss := hex_digits (S (Z.to_nat (Z.log2 num))) num "" in
  ("0x" +:+ setfill0 (width - String.length ss) ss)%string.

Definition dmiWordToHexStr (mem : list byte) (address offset : nat) : outcome string :=
  word ← dmiToWord mem address offset;
  Done (toHexStr word 4).

(** ** Lookup tables *)

Definition kSMBIOSMemoryFormFactorTable : gmap Z string :=
  list_to_map
    [ (0x01, "Other"); (0x02, "Unknown"); (0x03, "SIMM"); (0x04, "SIP");
      (0x05, "Chip"); (0x06, "DIP"); (0x07, "ZIP");
      (0x08, "Proprietary Card"); (0x09, "DIMM"); (0x0A, "TSOP");
      (0x0B, "Row of chips"); (0x0C, "RIMM"); (0x0D, "SODIMM");
      (0x0E, "SRIMM"); (0x0F, "FB-DIMM") ]%string.

Definition kSMBIOSMemoryDetailsTable : gmap Z string :=
  list_to_map
    [ (0, "Reserved"); (1, "Other"); (2, "Unknown"); (3, "Fast-paged");
      (4, "Static column"); (5, "Pseudo-static"); (6, "RAMBUS");
      (7, "Synchronous"); (8, "CMOS"); (9, "EDO"); (10, "Window DRAM");
      (11, "Cache DRAM"); (12, "Non-volatile");
      (13, "Registered (Buffered)"); (14, "Unbuffered (Unregistered)");
      (15, "LRDIMM") ]%string.

Definition kSMBIOSMemoryTypeTable : gmap Z string :=
  list_to_map
    [ (0x01, "Other"); (0x02, "Unknown"); (0x03, "DRAM"); (0x04, "EDRAM");
      (0x05, "VRAM"); (0x06, "SRAM"); (0x07, "RAM"); (0x08, "ROM");
      (0x09, "FLASH"); (0x0A, "EEPROM"); (0x0B, "FEPROM"); (0x0C, "EPROM");
      (0x0D, "CDRAM"); (0x0E, "3DRAM"); (0x0F, "SDRAM"); (0x10, "SGRAM");
      (0x11, "RDRAM"); (0x12, "DDR"); (0x13, "DDR2"); (0x14, "DDR2 FB-DIMM");
      (0x15, "RESERVED"); (0x16, "RESERVED"); (0x17, "RESERVED");
      (0x18, "DDR3"); (0x19, "FBD2"); (0x1A, "DDR4"); (0x1B, "LPDDR");
      (0x1C, "LPDDR2"); (0x1D, "LPDDR3"); (0x1E, "LPDDR4") ]%string.

(** ** Structure walker *)

(** Modelled from the spec: the struct [SMBStructHeader] is declared in
    [smbios_utils.h], which is not part of the sources at hand.  Section 3:
    the leading 4 bytes of every structure are [type] (1 byte), [length]
    (1 byte) and [handle] (2 bytes, little-endian). *)
Record SMBStructHeader : Type := {
  hdr_type : Z;
  hdr_length : Z;
  hdr_handle : Z
}.

Definition sizeof_SMBStructHeader : nat := 4.

(** [(const SMBStructHeader* )table]: the header seen through the pointer;
    the two bytes of [handle] are read as a little-endian host reads them. *)
Definition header_at (mem : list byte) (table : nat) : outcome SMBStructHeader :=
  ty ← peek mem table 0;
  len ← peek mem table 1;
  handle ← dmiToWord mem table 2;
  Done {| hdr_type := ty; hdr_length := len; hdr_handle := handle |}.

(** The parser object: [table_data_] is null or points to the buffer, whose
    number of bytes is [table_size_]. *)
Record SMBIOSParser : Type := {
  table_data_ : option (list byte)
}.

Definition table_size_ (p : SMBIOSParser) : nat :=
  match table_data_ p with
  | Some mem => length mem
  | None => O
  end.

(** One call [predicate(index, hdr, address, size)]. *)
Record tuple : Type := {
  t_index : nat;
  t_hdr : SMBStructHeader;
  t_address : nat;
  t_size : nat
}.

(** The inner [for] loop: look for the double NUL that ends the trailing
    data; the result is the final value of [next_table]. *)
Fixpoint scan (fuel : nat) (mem : list byte) (tables_end next_table : nat)
  : outcome nat :=
  match fuel with
  | O => Fault OutOfFuel
  | S fuel' =>
      if (next_table + sizeof_SMBStructHeader <=? tables_end)%nat then
        b0 ← peek mem next_table 0;
        if b0 =? 0 then
          b1 ← peek mem next_table 1;
          if b1 =? 0 then Done (next_table + 2)%nat
          else scan fuel' mem tables_end (S next_table)
        else scan fuel' mem tables_end (S next_table)
      else Done next_table
  end.

(** The outer [while] loop; the result lists the calls of [predicate] in
    the order they are made. *)
Fixpoint walk (fuel : nat) (mem : list byte) (tables_end table index : nat)
  : outcome (list tuple) :=
  match fuel with
  | O => Fault OutOfFuel
  | S fuel' =>
      if (table + sizeof_SMBStructHeader <=? tables_end)%nat then
        header ← header_at mem table;
        if (tables_end <? table + Z.to_nat (hdr_length header))%nat then
          Done []
        else if (hdr_length header =? 0) && (hdr_handle header =? 0) then
          Done []
        else
          next_table ← scan (S tables_end) mem tables_end
                          (table + Z.to_nat (hdr_length header))%nat;
          let table_length := (next_table - table)%nat in
          rest ← walk fuel' mem tables_end next_table (S index);
          Done ({| t_index := index; t_hdr := header; t_address := table;
                   t_size := table_length |} :: rest)
      else Done []
  end.

Definition tables (p : SMBIOSParser) : outcome (list tuple) :=
  match table_data_ p with
  | None => Done []
  | Some mem => walk (S (table_size_ p)) mem (table_size_ p) 0 0
  end.

(** ** String-table resolver *)

(** [boost::algorithm::trim_right] with the default [is_space] predicate in
    the classic locale: space, and the control characters 9 to 13. *)
Definition is_space (c : ascii) : bool :=
  let n := N_of_ascii c in
  ((9 <=? n)%N && (n <=? 13)%N) || (n =? 32)%N.

Fixpoint trim_right (s : string) : string :=
  match s with
  | EmptyString => EmptyString
  | String c s' =>
      match trim_right s' with
      | EmptyString => if is_space c then EmptyString else String c EmptyString
      | t => String c t
      end
  end.

(** A [char*] is the part of memory that starts where it points. *)

(** [while ( *bp != 0) bp++; bp++;] *)
Fixpoint skip_string (bp : list byte) : outcome (list byte) :=
  match bp with
  | [] => Fault OutOfBounds
  | b :: bp' => if u8 b =? 0 then Done bp' else skip_string bp'
  end.

(** [while (index > 1) { ...; index--; }] *)
Fixpoint skip_strings (index : nat) (bp : list byte) : outcome (list byte) :=
  match index with
  | S (S _ as index') => bp' ← skip_string bp; skip_strings index' bp'
  | _ => Done bp
  end.

(** [std::string str{bp}]: the bytes up to the first NUL. *)
Fixpoint c_str (bp : list byte) : outcome (list byte) :=
  match bp with
  | [] => Fault OutOfBounds
  | b :: bp' => if u8 b =? 0 then Done [] else cons b <$> c_str bp'
  end.

Definition dmiString (mem : list byte) (data address offset : nat)
  : outcome string :=
  index ← peek mem address offset;
  if index =? 0 then Done ""%string
  else
    bp ← skip_strings (Z.to_nat index) (drop data mem);
    str ← c_str bp;
    Done (trim_right (string_of_list_byte str)).

(** ** Bit-field decoder *)

(** [1 << i] on a 32-bit [int]. *)
Definition int_shl_1 (i : Z) : outcome Z :=
  if i <? 31 then Done (Z.shiftl 1 i)
  else if i =? 31 then Done (- 2 ^ 31)
  else Fault ShiftTooWide.

(** Conversion of an [int] to [size_t] (64 bits). *)
Definition to_size_t (x : Z) : Z := x mod 2 ^ 64.

(** [table.at(i)] *)
Definition map_at (table : gmap Z string) (i : Z) : outcome string :=
  match table !! i with
  | Some label => Done label
  | None => Fault out_of_range
  end.

(** The [for] loop of [dmiBitFieldToStr]; [i] is a [uint8_t]. *)
Fixpoint bitfield_loop (fuel : nat) (bitField : Z) (table : gmap Z string)
    (i : Z) (result : string) : outcome string :=
  match fuel with
  | O => Fault OutOfFuel
  | S fuel' =>
      if i <? Z.of_nat (size table) then
        bit ← int_shl_1 i;
        if Z.land (to_size_t bit) bitField =? 0 then
          bitfield_loop fuel' bitField table ((i + 1) mod 256) result
        else
          label ← map_at table i;
          bitfield_loop fuel' bitField table ((i + 1) mod 256)
            (result +:+ label +:+ " ")%string
      else Done result
  end.

Fixpoint pop_back (s : string) : string :=
  match s with
  | EmptyString => EmptyString
  | String c EmptyString => EmptyString
  | String c s' => String c (pop_back s')
  end.

Definition dmiBitFieldToStr (bitField : Z) (table : gmap Z string)
  : outcome string :=
  result ← bitfield_loop 257 bitField table 0 ""%string;
  Done (match result with
        | EmptyString => result
        | _ => pop_back result
        end).

(** ** Memory Device decoder *)

(** Modelled from the spec: the types [Row] and [QueryData] and the macro
    [INTEGER] come from headers that are not part of the sources at hand.
    Section 3: a decoded record maps named fields to an integer or a string,
    or leaves them absent. *)
Inductive value : Type :=
  | INTEGER (n : Z)
  | TEXT (s : string).

Abbreviation Row := (gmap string value).
Abbreviation QueryData := (list (gmap string value)).

(** Modelled from the spec: the constant [kSMBIOSTypeMemoryDevice] is
    declared in [smbios_utils.h]; section 4.5 gives its value, 17. *)
Definition kSMBIOSTypeMemoryDevice : Z := 17.

(** [if (c) { r[k] = v; }] *)
Definition assign_if (c : bool) (k : string) (v : value) (r : Row) : Row :=
  if c then <[k := v]> r else r.

(** [auto it = table.find(key); if (it != table.end()) { r[k] = it->second; }] *)
Definition assign_found (k : string) (found : option string) (r : Row) : Row :=
  match found with
  | Some second => <[k := TEXT second]> r
  | None => r
  end.

Definition genSMBIOSMemoryDevices (mem : list byte) (index : nat)
    (hdr : SMBStructHeader) (address size : nat) (results : QueryData)
  : outcome QueryData :=
  if negb (hdr_type hdr =? kSMBIOSTypeMemoryDevice) || (size <? 0x12)%nat
  then Done results
  else
    let r : Row := ∅ in
    handle ← dmiWordToHexStr mem address 0x02;
    let r := <["handle" := TEXT handle]> r in
    array_handle ← dmiWordToHexStr mem address 0x04;
    let r := <["array_handle" := TEXT array_handle]> r in

    formFactor ← peek mem address 0x0E;
    let r := assign_found "form_factor"
               (kSMBIOSMemoryFormFactorTable !! formFactor) r in

    memBits ← dmiToWord mem address 0x08;
    let r := assign_if (negb (memBits =? 0xFFFF))
               "total_width" (INTEGER memBits) r in

    memBits ← dmiToWord mem address 0x0A;
    let r := assign_if (negb (memBits =? 0xFFFF))
               "data_width" (INTEGER memBits) r in

    memBits ← dmiToWord mem address 0x0C;
    r ← (if negb (memBits =? 0xFFFF) then
           if negb (memBits =? 0x7FFF)
           then Done (<["size" := INTEGER memBits]> r)
           else dword ← dmiToDWord mem address 0x1C;
                Done (<["size" := INTEGER dword]> r)
         else Done r);

    set ← peek mem address 0x0F;
    let r := assign_if (negb (set =? 0xFF)) "set" (INTEGER set) r in

    let data := (address + Z.to_nat (hdr_length hdr))%nat in
    device_locator ← dmiString mem data address 0x10;
    let r := <["device_locator" := TEXT device_locator]> r in
    bank_locator ← dmiString mem data address 0x11;
    let r := <["bank_locator" := TEXT bank_locator]> r in

    memoryType ← peek mem address 0x12;
    let r := assign_found "memory_type"
               (kSMBIOSMemoryTypeTable !! memoryType) r in

    details_word ← dmiToWord mem address 0x13;
    details ← dmiBitFieldToStr details_word kSMBIOSMemoryDetailsTable;
    let r := <["memory_type_details" := TEXT details]> r in

    speed ← dmiToWord mem address 0x15;
    let r := assign_if (negb (speed =? 0x0000) && negb (speed =? 0xFFFF))
               "max_speed" (INTEGER speed) r in

    speed ← dmiToWord mem address 0x20;
    let r := assign_if (negb (speed =? 0x0000) && negb (speed =? 0xFFFF))
               "configured_clock_speed" (INTEGER speed) r in

    manufacturer ← dmiString mem data address 0x17;
    let r := <["manufacturer" := TEXT manufacturer]> r in
    serial_number ← dmiString mem data address 0x18;
    let r := <["serial_number" := TEXT serial_number]> r in
    asset_tag ← dmiString mem data address 0x19;
    let r := <["asset_tag" := TEXT asset_tag]> r in
    part_number ← dmiString mem data address 0x1A;
    let r := <["part_number" := TEXT part_number]> r in

    vt ← dmiToWord mem address 0x22;
    let r := assign_if (negb (vt =? 0)) "min_voltage" (INTEGER vt) r in

    vt ← dmiToWord mem address 0x24;
    let r := assign_if (negb (vt =? 0)) "max_voltage" (INTEGER vt) r in

    vt ← dmiToWord mem address 0x26;
    let r := assign_if (negb (vt =? 0)) "configured_voltage" (INTEGER vt) r in

    Done (results ++ [r]).

(** ** Generic summary decoder *)

Definition kSMBIOSTypeDescriptions : gmap Z string :=
  list_to_map
    [ (0, "BIOS Information"); (1, "System Information");
      (2, "Base Board or Module Information");
      (3, "System Enclosure or Chassis"); (4, "Processor Information");
      (5, "Memory Controller Information");
      (6, "Memory Module Information"); (7, "Cache Information");
      (8, "Port Connector Information"); (9, "System Slots");
      (10, "On Board Devices Information"); (11, "OEM Strings");
      (12, "System Configuration Options");
      (13, "BIOS Language Information"); (14, "Group Associations");
      (15, "System Event Log"); (16, "Physical Memory Array");
      (17, "Memory Device"); (18, "32-bit Memory Error Information");
      (19, "Memory Array Mapped Address");
      (20, "Memory Device Mapped Address");
      (21, "Built-in Pointing Device"); (22, "Portable Battery");
      (23, "System Reset"); (24, "Hardware Security");
      (25, "System Power Controls"); (26, "Voltage Probe");
      (27, "Cooling Device"); (28, "Temperature Probe");
      (29, "Electrical Current Probe"); (30, "Out-of-Band Remote Access");
      (31, "Boot Integrity Services"); (32, "System Boot Information");
      (33, "64-bit Memory Error Information"); (34, "Management Device");
      (35, "Management Device Component");
      (36, "Management Device Threshold Data"); (37, "Memory Channel");
      (38, "IPMI Device Information"); (39, "System Power Supply");
      (40, "Additional Information");
      (41, "Onboard Devices Extended Info"); (126, "Inactive");
      (127, "End-of-Table"); (130, "Memory SPD Data");
      (131, "OEM Processor Type"); (132, "OEM Processor Bus Speed") ]%string.

(** Modelled from the spec: the macro [BIGINT] comes from a header that is
    not part of the sources at hand; like [INTEGER] it stores an integer
    (section 3). *)
Definition BIGINT (n : Z) : value := INTEGER n.

(** The [size] bytes from [address] on, which [hashFromBuffer] reads. *)
Definition buffer_at (mem : list byte) (address size : nat)
  : outcome (list byte) :=
  if (size =? 0)%nat || (address + size <=? length mem)%nat
  then Done (take size (drop address mem))
  else Fault OutOfBounds.

(** [hashFromBuffer(HASH_TYPE_MD5, _, _)] is declared in
    [osquery/core/hashing.h], outside the sources at hand: the digest it
    computes from the bytes is a parameter. *)
Definition genSMBIOSTable (hashFromBuffer : list byte → string)
    (mem : list byte) (index : nat) (hdr : SMBStructHeader)
    (address size : nat) (results : QueryData) : outcome QueryData :=
  let r : Row := ∅ in
  let r := <["number" := INTEGER (Z.of_nat index)]> r in
  let r := <["type" := INTEGER (hdr_type hdr)]> r in
  description ←
    (if bool_decide (is_Some (kSMBIOSTypeDescriptions !! hdr_type hdr))
     then map_at kSMBIOSTypeDescriptions (hdr_type hdr)
     else Done "Unknown"%string);
  let r := <["description" := TEXT description]> r in
  let r := <["handle" := BIGINT (hdr_handle hdr)]> r in
  let r := <["header_size" := INTEGER (hdr_length hdr)]> r in
  let r := <["size" := INTEGER (Z.of_nat size)]> r in
  buffer ← buffer_at mem address size;
  let r := <["md5" := TEXT (hashFromBuffer buffer)]> r in
  Done (results ++ [r]).

(** ** The walker with a callback *)

(** [tables(predicate)] calls [predicate] once per emitted tuple, in order;
    the callbacks of the record decoders append to a list of results that
    they share.  [for_each_table] replays the calls on such a list. *)
Fixpoint for_each_table
    (predicate : nat → SMBStructHeader → nat → nat → QueryData →
                 outcome QueryData)
    (calls : list tuple) (results : QueryData) : outcome QueryData :=
  match calls with
  | [] => Done results
  | t :: calls' =>
      results' ← predicate (t_index t) (t_hdr t) (t_address t) (t_size t)
                   results;
      for_each_table predicate calls' results'
  end.

(** * Specification-level notions *)

(** The shape of the walker's output from cursor [table] and counter
    [index]: every tuple has the expected index, starts where the previous
    one ended, has a header that is read at its start and is not the
    zero-padding header, holds its formatted area, is not empty and ends
    inside the buffer. *)
Inductive chain (mem : list byte) : nat → nat → list tuple → Prop :=
  | chain_nil table index : chain mem table index []
  | chain_cons table index header table_length rest :
      header_at mem table = Done header →
      ¬ (hdr_length header = 0 ∧ hdr_handle header = 0) →
      (Z.to_nat (hdr_length header) ≤ table_length)%nat →
      (0 < table_length)%nat →
      (table + table_length ≤ length mem)%nat →
      chain mem (table + table_length) (S index) rest →
      chain mem table index
        ({| t_index := index; t_hdr := header; t_address := table;
            t_size := table_length |} :: rest).

(** The states of the walker's [while] loop: the cursor [table] and the
    counter [index] it has on entering an iteration.  It starts at the first
    byte with counter 0; from a structure it emits, it moves to the position
    the scan for the double NUL ends at. *)
Inductive reached (mem : list byte) : nat → nat → Prop :=
  | reached_start : reached mem 0 0
  | reached_next table index header next_table :
      reached mem table index →
      header_at mem table = Done header →
      (table + Z.to_nat (hdr_length header) ≤ length mem)%nat →
      ¬ (hdr_length header = 0 ∧ hdr_handle header = 0) →
      scan (S (length mem)) mem (length mem)
        (table + Z.to_nat (hdr_length header)) = Done next_table →
      reached mem next_table (S index).

(** No two consecutive NUL bytes from offset [from] to the end of [mem]. *)
Definition no_double_nul (mem : list byte) (from : nat) : Prop :=
  ∀ j, (from ≤ j)%nat → ¬ (mem !! j = Some x00 ∧ mem !! S j = Some x00).

(** ** Trailing areas and their strings *)

(** The byte strings [strs], each followed by its NUL terminator. *)
Fixpoint nul_terminated (strs : list (list byte)) : list byte :=
  match strs with
  | [] => []
  | s :: strs' => s ++ x00 :: nul_terminated strs'
  end.

Fixpoint all_space (s : string) : bool :=
  match s with
  | EmptyString => true
  | String c s' => is_space c && all_space s'
  end.

(** [text] is [raw] without its trailing whitespace: what was removed is
    whitespace only, and [text] does not end in whitespace.  Everything in
    front, leading whitespace included, is kept. *)
Definition trailing_stripped (raw text : string) : Prop :=
  ∃ ws, raw = (text +:+ ws)%string ∧ all_space ws = true ∧
        ∀ t c, text = (t +:+ String c "")%string → is_space c = false.

(** The string an index names in a trailing area, in the words of the
    specification: index 0 names the empty string whatever the area holds;
    index [k] from 1 names the [k]-th NUL-terminated string counted from the
    first byte of the area, without its trailing whitespace. *)
Inductive resolves (area : list byte) : nat → string → Prop :=
  | resolves_zero : resolves area 0 ""
  | resolves_kth k strs s rest text :
      area = nul_terminated strs ++ rest →
      Forall (Forall (λ b, b ≠ x00)) strs →
      strs !! k = Some s →
      trailing_stripped (string_of_list_byte s) text →
      resolves area (S k) text.

(** ** Bit masks and label tables *)

(** The labels of the set bits of [mask] that are present in [table], in
    ascending bit-index order (a [uint8_t] key is below 256). *)
Definition set_labels (mask : Z) (table : gmap Z string) : list string :=
  omap (λ i, if Z.testbit mask i then table !! i else None) (seqZ 0 256).

(** The labels joined by a single space, nothing in front or behind. *)
Fixpoint join_space (labels : list string) : string :=
  match labels with
  | [] => ""
  | [label] => label
  | label :: labels' => label +:+ " " +:+ join_space labels'
  end.

(** The bit-field decoder in the words of the specification. *)
Definition decodeBits (mask : Z) (table : gmap Z string) : string :=
  join_space (set_labels mask table).

(** The keys of [table] are exactly 0, ..., [size table - 1]. *)
Definition dense (table : gmap Z string) : Prop :=
  ∀ i, is_Some (table !! i) ↔ 0 ≤ i < Z.of_nat (size table).

(** Every label followed by a space: the accumulator of the loop. *)
Fixpoint spaced (labels : list string) : string :=
  match labels with
  | [] => ""
  | label :: labels' => (label +:+ " ") +:+ spaced labels'
  end.

(** ** Hexadecimal text *)

Definition is_hex_digit (c : ascii) : bool :=
  match c with
  | "0" | "1" | "2" | "3" | "4" | "5" | "6" | "7" | "8" | "9"
  | "a" | "b" | "c" | "d" | "e" | "f" => true
  | _ => false
  end%char.

Definition hex_digit_value (c : ascii) : Z :=
  match c with
  | "0" => 0 | "1" => 1 | "2" => 2 | "3" => 3 | "4" => 4 | "5" => 5
  | "6" => 6 | "7" => 7 | "8" => 8 | "9" => 9 | "a" => 10 | "b" => 11
  | "c" => 12 | "d" => 13 | "e" => 14 | "f" => 15 | _ => 0
  end%char.

(** The number a string of hexadecimal digits denotes, read left to right
    from the value [acc] of the digits already seen. *)
Fixpoint hex_value_from (acc : Z) (digits : string) : Z :=
  match digits with
  | EmptyString => acc
  | String c digits' => hex_value_from (16 * acc + hex_digit_value c) digits'
  end.

Definition hex_value (digits : string) : Z := hex_value_from 0 digits.

Fixpoint all_hex (digits : string) : bool :=
  match digits with
  | EmptyString => true
  | String c digits' => is_hex_digit c && all_hex digits'
  end.

(** ** Spans *)

(** The bytes of the span of a tuple. *)
Definition span_bytes (mem : list byte) (t : tuple) : list byte :=
  take (t_size t) (drop (t_address t) mem).

(** No two consecutive NUL bytes inside [bytes]. *)
Definition no_nul_pair (bytes : list byte) : Prop :=
  ∀ i, ¬ (bytes !! i = Some x00 ∧ bytes !! S i = Some x00).

(** The number of NUL bytes in [bytes]. *)
Fixpoint count_nul (bytes : list byte) : nat :=
  match bytes with
  | [] => 0
  | b :: bytes' => (if Byte.eqb b x00 then 1 else 0) + count_nul bytes'
  end.

(** No character of [text] is NUL. *)
Fixpoint nul_free (text : string) : bool :=
  match text with
  | EmptyString => true
  | String c text' => negb (Ascii.eqb c Ascii.zero) && nul_free text'
  end.

(** ** Records *)

(** The names of the fields a Memory Device record can hold. *)
Definition memory_device_fields : list string :=
  [ "handle"; "array_handle"; "form_factor"; "total_width"; "data_width";
    "size"; "set"; "device_locator"; "bank_locator"; "memory_type";
    "memory_type_details"; "max_speed"; "configured_clock_speed";
    "manufacturer"; "serial_number"; "asset_tag"; "part_number";
    "min_voltage"; "max_voltage"; "configured_voltage" ]%string.

(** The offsets of the six string indices of a Memory Device structure. *)
Definition memory_device_string_offsets : list nat :=
  [ 0x10; 0x11; 0x17; 0x18; 0x19; 0x1A ]%nat.

(** The names of the fields of a generic summary record. *)
Definition summary_fields : list string :=
  [ "number"; "type"; "description"; "handle"; "header_size"; "size";
    "md5" ]%string.

(** A tuple the Memory Device decoder makes a record of. *)
Definition is_memory_device (t : tuple) : bool :=
  (hdr_type (t_hdr t) =? kSMBIOSTypeMemoryDevice) && (0x12 <=? t_size t)%nat.

(** * Concrete buffers *)

(** A structure of length 4 followed by five bytes without any NUL. *)
Definition unterminated_mem : list byte :=
  [ x01; x04; x01; x00;  x41; x42; x43; x44; x45 ].

(** A structure of length 4 with its double NUL, then a structure of
    length 4 followed by five bytes without any NUL. *)
Definition late_unterminated_mem : list byte :=
  [ x01; x04; x01; x00;  x00; x00;
    x01; x04; x02; x00;  x41; x42; x43; x44; x45 ].

(** A structure whose header declares length 2, then zero bytes. *)
Definition short_header_mem : list byte :=
  [ x01; x02; x05; x00;  x00; x00; x00; x00 ].

(** A structure of length 4, its double NUL, then zero padding. *)
Definition padded_mem : list byte :=
  [ x01; x04; x01; x00;  x00; x00;  x00; x00; x00; x00 ].

(** A string index 2 followed by a trailing area whose second string has
    leading and trailing whitespace. *)
Definition padded_strings_mem : list byte :=
  [x02] ++ list_byte_of_string "A" ++ [x00]
        ++ list_byte_of_string "  DIMM 1 " ++ [x09; x00; x00].

(** The end-to-end scenario of the specification: a type-17 structure of
    length 0x1C with handle 0x1000, widths 64, size 2048, form factor DIMM,
    device locator 1, manufacturer 2 and the strings "Bank0" and "Corsair",
    followed by an end-of-table structure. *)
Definition scenario_mem : list byte :=
  [ x11; x1c; x00; x10;  x00; x00; x00; x00;
    x40; x00; x40; x00;  x00; x08; x09; x00;
    x01; x00; x00; x00;  x00; x00; x00; x02;
    x00; x00; x00; x00 ]
  ++ list_byte_of_string "Bank0" ++ [x00]
  ++ list_byte_of_string "Corsair" ++ [x00; x00]
  ++ [ x7f; x04; x01; x00;  x00; x00 ].

Definition scenario_hdr : SMBStructHeader :=
  {| hdr_type := 17; hdr_length := 0x1C; hdr_handle := 0x1000 |}.

Definition scenario_row : gmap string value :=
  list_to_map
    [ ("handle", TEXT "0x1000"); ("array_handle", TEXT "0x0000");
      ("form_factor", TEXT "DIMM"); ("total_width", INTEGER 64);
      ("data_width", INTEGER 64); ("size", INTEGER 2048);
      ("set", INTEGER 0); ("device_locator", TEXT "Bank0");
      ("bank_locator", TEXT ""); ("memory_type_details", TEXT "");
      ("configured_clock_speed", INTEGER 48);
      ("manufacturer", TEXT "Corsair"); ("serial_number", TEXT "");
      ("asset_tag", TEXT ""); ("part_number", TEXT "");
      ("min_voltage", INTEGER 28483); ("max_voltage", INTEGER 29554);
      ("configured_voltage", INTEGER 26977) ]%string.

(** A type-17 structure of length 0x28 with the extended size, every
    sentinel and a padded device locator, then an end-of-table structure. *)
Definition extended_mem : list byte :=
  [ x11; x28; x01; x10;  x00; x10; xfe; xff;
    xff; xff; xff; xff;  xff; x7f; x09; xff;
    x01; x00; x1a; x80;  x20; x00; x00; x02;
    x00; x00; x00; x00;  x00; x80; x00; x00;
    xff; xff; x00; x00;  x00; x00; x00; x00 ]
  ++ list_byte_of_string "DIMM A1  " ++ [x00]
  ++ list_byte_of_string "Corsair" ++ [x00; x00]
  ++ [ x7f; x04; x02; x00;  x00; x00 ].

Definition extended_hdr : SMBStructHeader :=
  {| hdr_type := 17; hdr_length := 0x28; hdr_handle := 0x1001 |}.

Definition extended_row : gmap string value :=
  list_to_map
    [ ("handle", TEXT "0x1001"); ("array_handle", TEXT "0x1000");
      ("form_factor", TEXT "DIMM"); ("size", INTEGER 32768);
      ("device_locator", TEXT "DIMM A1"); ("bank_locator", TEXT "");
      ("memory_type", TEXT "DDR4");
      ("memory_type_details", TEXT "Synchronous Registered (Buffered)");
      ("manufacturer", TEXT "Corsair"); ("serial_number", TEXT "");
      ("asset_tag", TEXT ""); ("part_number", TEXT "") ]%string.

(** A buffer of 0x12 bytes holding one type-17 structure of length 0x12. *)
Definition truncated_mem : list byte :=
  [ x11; x12; x00; x10;  x00; x00; x00; x00;
    x00; x00; x00; x00;  x00; x00; x00; x00;
    x00; x00 ].

Definition truncated_hdr : SMBStructHeader :=
  {| hdr_type := 17; hdr_length := 0x12; hdr_handle := 0x1000 |}.

(** [extended_mem] with device-locator index 4: two strings are present. *)
Definition overrun_mem : list byte := <[0x10%nat := x04]> extended_mem.

(** The trailing data of the first structure of [extended_mem], without
    its closing double NUL. *)
Definition extended_body : list byte :=
  list_byte_of_string "DIMM A1  " ++ [x00] ++ list_byte_of_string "Corsair".


(** The form-factor table with the entry of its highest key, 15, moved to
    the key 200: as many entries, the same ones below 15. *)
Definition moved_table : gmap Z string :=
  <[200 := "FB-DIMM"%string]> (delete 15 kSMBIOSMemoryFormFactorTable).

(** * Worked examples *)

Example toHexStr_4096 : toHexStr 4096 4 = "0x1000"%string.
Proof. reflexivity. Qed.

Example toHexStr_ab : toHexStr 171 4 = "0x00ab"%string.
Proof. reflexivity. Qed.

Example toHexStr_0 : toHexStr 0 4 = "0x0000"%string.
Proof. reflexivity. Qed.

(** A structure whose declared length exceeds the bytes that remain is not
    emitted. *)
Example tables_overlong :
  tables {| table_data_ := Some [x01; x10; x01; x00; x00; x00] |} = Done [].
Proof. reflexivity. Qed.

Example trim_right_padded :
  trim_right "  DIMM 1  " = "  DIMM 1"%string.
Proof. reflexivity. Qed.

(** * Memory and field codec *)

Lemma u8_range (b : byte) : 0 ≤ u8 b < 256.
Proof.
  unfold u8. pose proof (Byte.to_N_bounded b). lia.
Qed.

Lemma u8_zero (b : byte) : u8 b = 0 ↔ b = x00.
Proof.
  split; [|by intros ->].
  intros H. destruct b; (reflexivity || discriminate H).
Qed.

Lemma peek_inside (mem : list byte) (address offset : nat) :
  (address + offset < length mem)%nat →
  ∃ b, mem !! (address + offset)%nat = Some b ∧
       peek mem address offset = Done (u8 b).
Proof.
  intros Hlt. destruct (lookup_lt_is_Some_2 mem _ Hlt) as [b Hb].
  exists b. unfold peek. by rewrite Hb.
Qed.

Lemma peek_Done_inv (mem : list byte) (address offset : nat) (v : Z) :
  peek mem address offset = Done v →
  (address + offset < length mem)%nat ∧ 0 ≤ v < 256.
Proof.
  unfold peek. destruct (mem !! _) as [b|] eqn:Hb; [|done].
  intros [= <-]. split; [by eapply lookup_lt_Some | apply u8_range].
Qed.

Lemma peek_outside (mem : list byte) (address offset : nat) :
  (length mem ≤ address + offset)%nat →
  peek mem address offset = Fault OutOfBounds.
Proof.
  intros Hge. unfold peek. by rewrite lookup_ge_None_2.
Qed.

Lemma bind_Done {A B} (a : A) (k : A → outcome B) : (Done a ≫= k) = k a.
Proof. reflexivity. Qed.

Lemma Done_inj {A} (a b : A) : Done a = Done b → a = b.
Proof. by intros [= ->]. Qed.

Lemma bind_Done_inv {A B} (m : outcome A) (k : A → outcome B) (b : B) :
  (m ≫= k) = Done b → ∃ a, m = Done a ∧ k a = Done b.
Proof. destruct m as [a|f]; [eauto | discriminate]. Qed.

Lemma word_range (hi lo : Z) :
  0 ≤ hi < 256 → 0 ≤ lo < 256 → 0 ≤ Z.lor (Z.shiftl hi 8) lo < 65536.
Proof.
  intros Hhi Hlo. split.
  - apply Z.lor_nonneg. split; [apply Z.shiftl_nonneg|]; lia.
  - change 65536 with (2 ^ 16).
    destruct (Z.eq_dec (Z.lor (Z.shiftl hi 8) lo) 0) as [->|Hnz]; [lia|].
    apply Z.log2_lt_pow2.
    + assert (0 ≤ Z.lor (Z.shiftl hi 8) lo); [|lia].
      apply Z.lor_nonneg. split; [apply Z.shiftl_nonneg|]; lia.
    + rewrite Z.log2_lor by (try apply Z.shiftl_nonneg; lia).
      apply Z.max_lub_lt.
      * destruct (Z.eq_dec hi 0) as [->|]; [by rewrite Z.shiftl_0_l|].
        rewrite Z.log2_shiftl by lia.
        assert (Z.log2 hi < 8); [|lia].
        apply Z.log2_lt_pow2; lia.
      * destruct (Z.eq_dec lo 0) as [->|]; [done|].
        assert (Z.log2 lo < 8); [|lia].
        apply Z.log2_lt_pow2; lia.
Qed.

Lemma dmiToWord_inside (mem : list byte) (address offset : nat) :
  (address + offset + 1 < length mem)%nat →
  ∃ w, dmiToWord mem address offset = Done w ∧ 0 ≤ w < 65536.
Proof.
  intros Hlt. unfold dmiToWord.
  destruct (peek_inside mem address (offset + 1)) as (hi & _ & ->); [lia|].
  destruct (peek_inside mem address offset) as (lo & _ & ->); [lia|].
  eexists. split; [reflexivity|].
  apply word_range; apply u8_range.
Qed.

Lemma dmiToWord_Done_inv (mem : list byte) (address offset : nat) (w : Z) :
  dmiToWord mem address offset = Done w →
  (address + offset + 1 < length mem)%nat ∧ 0 ≤ w < 65536.
Proof.
  unfold dmiToWord. intros H.
  apply bind_Done_inv in H as (hi & Hhi & H).
  apply bind_Done_inv in H as (lo & Hlo & [= <-]).
  apply peek_Done_inv in Hhi as [? ?]. apply peek_Done_inv in Hlo as [? ?].
  split; [lia | by apply word_range].
Qed.

(** Placing [lo] below [hi] with shift and or is the same as adding. *)
Lemma lor_shiftl_add (hi lo k : Z) :
  0 ≤ k → 0 ≤ lo < 2 ^ k → Z.lor (Z.shiftl hi k) lo = hi * 2 ^ k + lo.
Proof.
  intros Hk Hlo.
  assert (Z.land (Z.shiftl hi k) lo = 0) as Hdisjoint.
  { apply Z.bits_inj'. intros n Hn. rewrite Z.land_spec, Z.bits_0.
    destruct (Z.lt_ge_cases n k).
    - by rewrite Z.shiftl_spec_low.
    - rewrite <- (Z.mod_small lo (2 ^ k)) by done.
      rewrite Z.mod_pow2_bits_high by lia. apply andb_false_r. }
  rewrite <- Z.lxor_lor, <- Z.add_nocarry_lxor by done.
  by rewrite Z.shiftl_mul_pow2.
Qed.

Ltac pow_lia :=
  rewrite ?Z.shiftl_mul_pow2 by lia;
  change (2 ^ 8) with 256 in *; change (2 ^ 16) with 65536 in *;
  change (2 ^ 24) with 16777216 in *; lia.

(** The word and the dword are little-endian: the byte at the lowest
    offset is the least significant one. *)
Lemma dmiToWord_little_endian (mem : list byte) (address offset : nat)
    (b0 b1 : Z) :
  peek mem address offset = Done b0 →
  peek mem address (offset + 1) = Done b1 →
  dmiToWord mem address offset = Done (b0 + 2 ^ 8 * b1).
Proof.
  intros H0 H1. unfold dmiToWord. rewrite H1, H0, !bind_Done.
  apply peek_Done_inv in H0 as [_ ?].
  rewrite lor_shiftl_add by pow_lia. f_equal. lia.
Qed.

Lemma dmiToDWord_little_endian (mem : list byte) (address offset : nat)
    (b0 b1 b2 b3 : Z) :
  peek mem address offset = Done b0 →
  peek mem address (offset + 1) = Done b1 →
  peek mem address (offset + 2) = Done b2 →
  peek mem address (offset + 3) = Done b3 →
  dmiToDWord mem address offset
  = Done (b0 + 2 ^ 8 * b1 + 2 ^ 16 * b2 + 2 ^ 24 * b3).
Proof.
  intros H0 H1 H2 H3. unfold dmiToDWord. rewrite H3, H2, H1, H0, !bind_Done.
  apply peek_Done_inv in H0 as [_ ?]. apply peek_Done_inv in H1 as [_ ?].
  apply peek_Done_inv in H2 as [_ ?]. apply peek_Done_inv in H3 as [_ ?].
  f_equal.
  assert (Z.lor (Z.shiftl b3 24) (Z.shiftl b2 16)
          = Z.shiftl (b3 * 2 ^ 8 + b2) 16) as ->.
  { replace (Z.shiftl b3 24) with (Z.shiftl (Z.shiftl b3 8) 16)
      by (by rewrite Z.shiftl_shiftl by lia).
    rewrite <- Z.shiftl_lor, lor_shiftl_add by pow_lia. done. }
  assert (Z.lor (Z.shiftl (b3 * 2 ^ 8 + b2) 16) (Z.shiftl b1 8)
          = Z.shiftl ((b3 * 2 ^ 8 + b2) * 2 ^ 8 + b1) 8) as ->.
  { replace (Z.shiftl (b3 * 2 ^ 8 + b2) 16)
      with (Z.shiftl (Z.shiftl (b3 * 2 ^ 8 + b2) 8) 8)
      by (by rewrite Z.shiftl_shiftl by lia).
    rewrite <- Z.shiftl_lor, lor_shiftl_add by pow_lia. done. }
  rewrite lor_shiftl_add by pow_lia. lia.
Qed.

(** * Structure walker *)

(** A buffer shorter than a header yields nothing. *)
Lemma tables_short (mem : list byte) :
  (length mem < sizeof_SMBStructHeader)%nat →
  tables {| table_data_ := Some mem |} = Done [].
Proof.
  intros Hshort. unfold tables, table_size_. cbn [table_data_ walk].
  by destruct (Nat.leb_spec (0 + sizeof_SMBStructHeader) (length mem));
    [unfold sizeof_SMBStructHeader in *; lia|].
Qed.

Lemma header_at_inside (mem : list byte) (table : nat) :
  (table + sizeof_SMBStructHeader ≤ length mem)%nat →
  ∃ header, header_at mem table = Done header ∧
            0 ≤ hdr_length header < 256.
Proof.
  unfold sizeof_SMBStructHeader, header_at. intros Hle.
  destruct (peek_inside mem table 0) as (ty & _ & ->); [lia|].
  destruct (peek_inside mem table 1) as (len & _ & ->); [lia|].
  destruct (dmiToWord_inside mem table 2) as (handle & -> & _); [lia|].
  eexists. split; [reflexivity|]. simpl. apply u8_range.
Qed.

(** The scan for the closing double NUL finishes, inside the buffer, and
    makes progress whenever a header still fits at its starting point. *)
Lemma scan_total (mem : list byte) (fuel next_table : nat) :
  (next_table ≤ length mem)%nat →
  (length mem - next_table < fuel)%nat →
  ∃ n, scan fuel mem (length mem) next_table = Done n ∧
       (next_table ≤ n ≤ length mem)%nat ∧
       ((next_table + sizeof_SMBStructHeader ≤ length mem)%nat →
        (next_table < n)%nat).
Proof.
  revert next_table. unfold sizeof_SMBStructHeader.
  induction fuel as [|fuel IH]; intros next_table Hle Hfuel; [lia|].
  simpl. unfold sizeof_SMBStructHeader.
  destruct (Nat.leb_spec (next_table + 4) (length mem)) as [Hfit|Hnofit].
  - destruct (IH (S next_table)) as (n & Hn & Hbounds & _); [lia..|].
    destruct (peek_inside mem next_table 0) as (b0 & _ & ->); [lia|].
    rewrite bind_Done.
    destruct (u8 b0 =? 0).
    + destruct (peek_inside mem next_table 1) as (b1 & _ & ->); [lia|].
      rewrite bind_Done.
      destruct (u8 b1 =? 0).
      * eexists. split; [reflexivity|]. lia.
      * exists n. split; [done|]. lia.
    + exists n. split; [done|]. lia.
  - exists next_table. split; [done|]. lia.
Qed.

(** With enough fuel the walk finishes, and its output is a [chain]. *)
Lemma walk_chain (mem : list byte) (fuel table index : nat) :
  (table ≤ length mem)%nat →
  (length mem - table < fuel)%nat →
  ∃ l, walk fuel mem (length mem) table index = Done l ∧
       chain mem table index l.
Proof.
  revert table index.
  induction fuel as [|fuel IH]; intros table index Hle Hfuel; [lia|].
  cbn [walk].
  destruct (Nat.leb_spec (table + sizeof_SMBStructHeader) (length mem))
    as [Hfit|Hnofit]; [|exists []; split; [done | constructor]].
  destruct (header_at_inside mem table Hfit) as (header & Hhdr & Hlen).
  rewrite Hhdr, bind_Done.
  destruct (Nat.ltb_spec (length mem) (table + Z.to_nat (hdr_length header)))
    as [Hover|Hin]; [exists []; split; [done | constructor]|].
  destruct ((hdr_length header =? 0) && (hdr_handle header =? 0)) eqn:Hpad;
    [exists []; split; [done | constructor]|].
  destruct (scan_total mem (S (length mem))
              (table + Z.to_nat (hdr_length header))) as (n & -> & Hn & Hprog);
    [lia..|].
  rewrite bind_Done.
  assert (table < n)%nat as Hlt.
  { destruct (Z.to_nat (hdr_length header)) eqn:Hz; [|lia].
    rewrite Nat.add_0_r in Hprog. by apply Hprog. }
  destruct (IH n (S index)) as (rest & -> & Hrest); [lia..|].
  rewrite bind_Done. eexists. split; [reflexivity|].
  apply chain_cons; [done | | lia | lia | lia |].
  - intros [H0 H1]. rewrite H0, H1 in Hpad. discriminate.
  - by replace (table + (n - table))%nat with n by lia.
Qed.

Lemma tables_chain (p : SMBIOSParser) :
  ∃ l, tables p = Done l ∧
       match table_data_ p with
       | Some mem => chain mem 0 0 l
       | None => l = []
       end.
Proof.
  unfold tables, table_size_. destruct (table_data_ p) as [mem|]; [|eauto].
  apply walk_chain; lia.
Qed.

Lemma chain_indices (mem : list byte) (table index : nat) (l : list tuple) :
  chain mem table index l → map t_index l = seq index (length l).
Proof. induction 1; simpl; congruence. Qed.

Lemma chain_addresses (mem : list byte) (table index : nat) (l : list tuple) :
  chain mem table index l →
  Forall (λ t, (table ≤ t_address t)%nat ∧
               (t_address t + t_size t ≤ length mem)%nat) l.
Proof.
  induction 1 as [|table index header len rest ? ? ? ? ? ? IH]; constructor.
  - simpl. lia.
  - eapply Forall_impl; [exact IH|]. simpl. intros t. lia.
Qed.

Lemma chain_ascending (mem : list byte) (table index : nat) (l : list tuple) :
  chain mem table index l → StronglySorted lt (map t_address l).
Proof.
  induction 1 as [|table index header len rest ? ? ? ? ? Hrest IH]; simpl;
    constructor; [done|].
  apply chain_addresses in Hrest.
  apply Forall_map. eapply Forall_impl; [exact Hrest|]. simpl. intros t. lia.
Qed.

Lemma chain_headers (mem : list byte) (table index : nat) (l : list tuple) :
  chain mem table index l →
  Forall (λ t, header_at mem (t_address t) = Done (t_hdr t) ∧
               ¬ (hdr_length (t_hdr t) = 0 ∧ hdr_handle (t_hdr t) = 0) ∧
               (t_address t + Z.to_nat (hdr_length (t_hdr t))
                  ≤ length mem)%nat) l.
Proof.
  induction 1; constructor; [|done]. simpl. repeat split; try done. lia.
Qed.

(** C9. For every buffer the walk finishes; the tuples it emits carry the
    indices 0, 1, 2, ... in emission order, their start addresses are
    strictly ascending, and the span of every tuple (start address up to
    start address plus span length) lies inside the buffer. *)
Theorem tables_sequence (p : SMBIOSParser) :
  ∃ l, tables p = Done l ∧
       map t_index l = seq 0 (length l) ∧
       StronglySorted lt (map t_address l) ∧
       Forall (λ t, (t_address t + t_size t ≤ table_size_ p)%nat) l.
Proof.
  destruct (tables_chain p) as (l & Hl & Hchain). exists l.
  split; [done|]. unfold table_size_.
  destruct (table_data_ p) as [mem|].
  - split; [by eapply chain_indices|].
    split; [by eapply chain_ascending|].
    apply chain_addresses in Hchain.
    eapply Forall_impl; [exact Hchain|]. simpl. intros t. lia.
  - subst l. simpl. repeat split; constructor.
Qed.

(** Without a double NUL ahead, the scan runs to the last position where a
    header would still fit, or stays where it started. *)
Lemma scan_no_double_nul (mem : list byte) (fuel next_table : nat) :
  (next_table ≤ length mem)%nat →
  (length mem - next_table < fuel)%nat →
  no_double_nul mem next_table →
  scan fuel mem (length mem) next_table
  = Done (Nat.max next_table (length mem - 3)).
Proof.
  revert next_table.
  induction fuel as [|fuel IH]; intros next_table Hle Hfuel Hnul; [lia|].
  cbn [scan]. unfold sizeof_SMBStructHeader.
  destruct (Nat.leb_spec (next_table + 4) (length mem)) as [Hfit|Hnofit];
    [|f_equal; lia].
  assert (scan fuel mem (length mem) (S next_table)
          = Done (Nat.max next_table (length mem - 3))) as Hnext.
  { rewrite IH; [f_equal; lia | lia | lia |].
    intros j Hj. apply Hnul. lia. }
  destruct (peek_inside mem next_table 0) as (b0 & Hb0 & ->); [lia|].
  rewrite bind_Done.
  destruct (Z.eqb_spec (u8 b0) 0) as [Hz0|]; [|done].
  destruct (peek_inside mem next_table 1) as (b1 & Hb1 & ->); [lia|].
  rewrite bind_Done.
  destruct (Z.eqb_spec (u8 b1) 0) as [Hz1|]; [|done].
  apply u8_zero in Hz0, Hz1. subst b0 b1.
  rewrite Nat.add_0_r in Hb0. rewrite Nat.add_1_r in Hb1.
  destruct (Hnul next_table); [lia | done].
Qed.

Lemma header_at_Done_inv (mem : list byte) (table : nat)
    (header : SMBStructHeader) :
  header_at mem table = Done header →
  (table + sizeof_SMBStructHeader ≤ length mem)%nat ∧
  0 ≤ hdr_length header < 256.
Proof.
  unfold header_at, sizeof_SMBStructHeader. intros Hhdr.
  apply bind_Done_inv in Hhdr as (ty & _ & Hhdr).
  apply bind_Done_inv in Hhdr as (len & Hlen & Hhdr).
  apply bind_Done_inv in Hhdr as (handle & Hhandle & Hhdr).
  apply Done_inj in Hhdr as <-. cbn.
  apply dmiToWord_Done_inv in Hhandle. apply peek_Done_inv in Hlen. lia.
Qed.

(** One iteration of the [while] loop that emits a structure. *)
Lemma walk_emit (mem : list byte) (fuel table index next_table : nat)
    (header : SMBStructHeader) :
  header_at mem table = Done header →
  (table + Z.to_nat (hdr_length header) ≤ length mem)%nat →
  ¬ (hdr_length header = 0 ∧ hdr_handle header = 0) →
  scan (S (length mem)) mem (length mem)
    (table + Z.to_nat (hdr_length header)) = Done next_table →
  walk (S fuel) mem (length mem) table index
  = (rest ← walk fuel mem (length mem) next_table (S index);
     Done ({| t_index := index; t_hdr := header; t_address := table;
              t_size := next_table - table |} :: rest)).
Proof.
  intros Hhdr Hfit Hpad Hscan. cbn [walk].
  destruct (header_at_Done_inv _ _ _ Hhdr) as [Hfour _].
  destruct (Nat.leb_spec (table + sizeof_SMBStructHeader) (length mem));
    [|lia].
  rewrite Hhdr, bind_Done.
  destruct (Nat.ltb_spec (length mem) (table + Z.to_nat (hdr_length header)));
    [lia|].
  destruct (Z.eqb_spec (hdr_length header) 0) as [Hlen0|];
    [destruct (Z.eqb_spec (hdr_handle header) 0) as [Hhandle0|]; [tauto|] |];
    cbn [andb]; by rewrite Hscan, bind_Done.
Qed.

(** The loop stops at a header with length 0 and handle 0. *)
Lemma walk_zero (mem : list byte) (fuel table index : nat)
    (header : SMBStructHeader) :
  header_at mem table = Done header →
  hdr_length header = 0 →
  hdr_handle header = 0 →
  walk (S fuel) mem (length mem) table index = Done [].
Proof.
  intros Hhdr Hlen Hhandle. cbn [walk].
  destruct (table + sizeof_SMBStructHeader <=? length mem)%nat; [|done].
  rewrite Hhdr, bind_Done.
  destruct (length mem <? table + Z.to_nat (hdr_length header))%nat;
    [done|].
  by rewrite Hlen, Hhandle.
Qed.

(** The structure at the cursor is the last one emitted when no double NUL
    follows its formatted area. *)
Lemma walk_last (mem : list byte) (fuel table index : nat)
    (header : SMBStructHeader) :
  header_at mem table = Done header →
  (table + Z.to_nat (hdr_length header) ≤ length mem)%nat →
  ¬ (hdr_length header = 0 ∧ hdr_handle header = 0) →
  no_double_nul mem (table + Z.to_nat (hdr_length header)) →
  (1 < fuel)%nat →
  walk fuel mem (length mem) table index
  = Done [ {| t_index := index; t_hdr := header; t_address := table;
              t_size := Nat.max (Z.to_nat (hdr_length header))
                                (length mem - 3 - table) |} ].
Proof.
  intros Hhdr Hfit Hpad Hnul Hfuel.
  destruct fuel as [|[|fuel]]; [lia..|].
  destruct (header_at_Done_inv _ _ _ Hhdr) as [Hfour _].
  unfold sizeof_SMBStructHeader in Hfour.
  assert (length mem - (table + Z.to_nat (hdr_length header))
          < S (length mem))%nat as Henough by lia.
  rewrite (walk_emit mem _ table index _ header Hhdr Hfit Hpad
             (scan_no_double_nul mem _ _ Hfit Henough Hnul)).
  cbn [walk]. unfold sizeof_SMBStructHeader.
  destruct (Nat.leb_spec
              (Nat.max (table + Z.to_nat (hdr_length header))
                       (length mem - 3) + 4) (length mem)); [lia|].
  rewrite bind_Done. do 3 f_equal. lia.
Qed.

(** What the walk emits from a state of its loop is the end of the output
    of [tables]; in front of it are the [index] tuples emitted before, which
    all start before the cursor. *)
Lemma tables_reached (mem : list byte) (table index : nat) :
  reached mem table index →
  ∃ (prefix l : list tuple) (fuel : nat),
    (table ≤ length mem)%nat ∧
    (length mem - table < fuel)%nat ∧
    walk fuel mem (length mem) table index = Done l ∧
    tables {| table_data_ := Some mem |} = Done (prefix ++ l) ∧
    length prefix = index ∧
    Forall (λ t, (t_address t < table)%nat) prefix.
Proof.
  induction 1 as [|table index header next_table _ IH Hhdr Hfit Hpad Hscan].
  - destruct (walk_chain mem (S (length mem)) 0 0) as (l & Hl & _); [lia..|].
    exists [], l, (S (length mem)).
    repeat split; [lia | lia | done | done | constructor].
  - destruct IH
      as (prefix & l & fuel & Hle & Hfuel & Hwalk & Htables & Hlen & Hbefore).
    destruct fuel as [|fuel]; [lia|].
    rewrite (walk_emit _ _ _ _ _ _ Hhdr Hfit Hpad Hscan) in Hwalk.
    apply bind_Done_inv in Hwalk as (rest & Hrest & Hl).
    apply Done_inj in Hl as <-.
    destruct (scan_total mem (S (length mem))
                (table + Z.to_nat (hdr_length header)))
      as (n & Hn & Hbounds & Hprog); [lia..|].
    rewrite Hscan in Hn. apply Done_inj in Hn as <-.
    destruct (header_at_Done_inv _ _ _ Hhdr) as [Hfour _].
    assert (table < next_table)%nat.
    { destruct (Z.to_nat (hdr_length header)) eqn:Hz; [|lia].
      rewrite Nat.add_0_r in Hprog. by apply Hprog. }
    exists (prefix ++ [ {| t_index := index; t_hdr := header;
                           t_address := table;
                           t_size := next_table - table |} ]), rest, fuel.
    repeat split; [lia | lia | done | | | ].
    + by rewrite Htables, <- app_assoc.
    + rewrite length_app. cbn. lia.
    + apply Forall_app. split.
      * eapply Forall_impl; [exact Hbefore|]. cbn. intros t. lia.
      * by repeat constructor.
Qed.

(** C2 (amended). When the walker reaches a structure whose formatted area
    fits in the buffer, whose header is not the zero-padding header and
    whose formatted area is followed by no two consecutive NUL bytes, it
    still emits that structure, as the last tuple of its output: the span
    runs to the last position where a header would fit (or covers just the
    formatted area), and nothing is emitted after it. *)
Theorem tables_unterminated (mem : list byte) (table index : nat)
    (header : SMBStructHeader) :
  reached mem table index →
  header_at mem table = Done header →
  (table + Z.to_nat (hdr_length header) ≤ length mem)%nat →
  ¬ (hdr_length header = 0 ∧ hdr_handle header = 0) →
  no_double_nul mem (table + Z.to_nat (hdr_length header)) →
  ∃ prefix,
    length prefix = index ∧
    tables {| table_data_ := Some mem |}
    = Done (prefix ++
            [ {| t_index := index; t_hdr := header; t_address := table;
                 t_size := Nat.max (Z.to_nat (hdr_length header))
                                   (length mem - 3 - table) |} ]).
Proof.
  intros Hreached Hhdr Hfit Hpad Hnul.
  destruct (tables_reached _ _ _ Hreached)
    as (prefix & l & fuel & _ & Hfuel & Hwalk & Htables & Hlen & _).
  destruct (header_at_Done_inv _ _ _ Hhdr) as [Hfour _].
  unfold sizeof_SMBStructHeader in Hfour.
  rewrite (walk_last _ _ _ _ header) in Hwalk by (done || lia).
  apply Done_inj in Hwalk as <-. by exists prefix.
Qed.

(** C8 (amended). For every buffer, every structure the walker emits has
    the header stored at its start, that header is not the zero-padding
    header (length 0 together with handle 0), and the formatted area it
    declares lies inside the buffer; nothing is said of a length below 4,
    which the walker accepts.  When the walker reaches a header with
    length 0 and handle 0 the output ends with the structures emitted before
    it: neither that structure nor any later one is emitted. *)
Theorem tables_zero_header (mem : list byte) :
  ∃ l,
    tables {| table_data_ := Some mem |} = Done l ∧
    Forall (λ t, header_at mem (t_address t) = Done (t_hdr t) ∧
                 ¬ (hdr_length (t_hdr t) = 0 ∧ hdr_handle (t_hdr t) = 0) ∧
                 (t_address t + Z.to_nat (hdr_length (t_hdr t))
                    ≤ length mem)%nat) l ∧
    ∀ (table index : nat) (header : SMBStructHeader),
      reached mem table index →
      header_at mem table = Done header →
      hdr_length header = 0 →
      hdr_handle header = 0 →
      length l = index ∧ Forall (λ t, (t_address t < table)%nat) l.
Proof.
  destruct (tables_chain {| table_data_ := Some mem |}) as (l & Hl & Hchain).
  cbn in Hchain. exists l. split; [done|].
  split; [by apply chain_headers in Hchain|].
  intros table index header Hreached Hhdr Hlen Hhandle.
  destruct (tables_reached _ _ _ Hreached)
    as (prefix & l' & fuel & _ & Hfuel & Hwalk & Htables & Hprefix & Hbefore).
  destruct fuel as [|fuel]; [lia|].
  rewrite (walk_zero _ _ _ _ _ Hhdr Hlen Hhandle) in Hwalk.
  apply Done_inj in Hwalk as <-. rewrite app_nil_r in Htables.
  rewrite Htables in Hl. apply Done_inj in Hl as <-. by split.
Qed.

Ltac scan_bytes j H1 H2 :=
  repeat first
    [ discriminate H1 | discriminate H2 | lia
    | destruct j as [|j]; cbn in H1, H2 ].

Lemma late_unterminated_reached : reached late_unterminated_mem 6 1.
Proof.
  apply (reached_next late_unterminated_mem 0 0
           {| hdr_type := 1; hdr_length := 4; hdr_handle := 1 |} 6).
  - constructor.
  - reflexivity.
  - cbn. lia.
  - cbn. lia.
  - reflexivity.
Qed.

Lemma tables_unterminated_witness :
  ∃ prefix,
    length prefix = 1%nat ∧
    tables {| table_data_ := Some late_unterminated_mem |}
    = Done (prefix ++
            [ {| t_index := 1;
                 t_hdr := {| hdr_type := 1; hdr_length := 4;
                             hdr_handle := 2 |};
                 t_address := 6; t_size := 6 |} ]).
Proof.
  apply (tables_unterminated late_unterminated_mem 6 1
           {| hdr_type := 1; hdr_length := 4; hdr_handle := 2 |}).
  - exact late_unterminated_reached.
  - reflexivity.
  - cbn. lia.
  - cbn. lia.
  - intros j Hj [H1 H2]. cbn in Hj. scan_bytes j H1 H2.
Defined.

Lemma unterminated_is_emitted :
  header_at unterminated_mem 0
  = Done {| hdr_type := 1; hdr_length := 4; hdr_handle := 1 |} ∧
  (0 + 4 ≤ length unterminated_mem)%nat ∧
  no_double_nul unterminated_mem (0 + 4) ∧
  tables {| table_data_ := Some unterminated_mem |}
  = Done [ {| t_index := 0;
              t_hdr := {| hdr_type := 1; hdr_length := 4; hdr_handle := 1 |};
              t_address := 0; t_size := 6 |} ] ∧
  tables {| table_data_ := Some unterminated_mem |} ≠ Done [].
Proof.
  split; [reflexivity|]. split; [cbn; lia|]. split; [|split].
  - intros j Hj [H1 H2]. cbn in Hj. scan_bytes j H1 H2.
  - reflexivity.
  - discriminate.
Qed.

Lemma padded_reached : reached padded_mem 6 1.
Proof.
  apply (reached_next padded_mem 0 0
           {| hdr_type := 1; hdr_length := 4; hdr_handle := 1 |} 6).
  - constructor.
  - reflexivity.
  - cbn. lia.
  - cbn. lia.
  - reflexivity.
Qed.

Lemma tables_zero_header_witness :
  ∃ l, tables {| table_data_ := Some padded_mem |} = Done l ∧
       Forall (λ t, header_at padded_mem (t_address t) = Done (t_hdr t) ∧
                    ¬ (hdr_length (t_hdr t) = 0 ∧ hdr_handle (t_hdr t) = 0) ∧
                    (t_address t + Z.to_nat (hdr_length (t_hdr t))
                       ≤ length padded_mem)%nat) l ∧
       length l = 1%nat ∧
       Forall (λ t, (t_address t < 6)%nat) l.
Proof.
  destruct (tables_zero_header padded_mem) as (l & Hl & Hall & Hzero).
  exists l. split; [exact Hl|]. split; [exact Hall|].
  exact (Hzero 6%nat 1%nat
           {| hdr_type := 0; hdr_length := 0; hdr_handle := 0 |}
           padded_reached eq_refl eq_refl eq_refl).
Defined.

Lemma short_header_is_emitted :
  tables {| table_data_ := Some short_header_mem |}
  = Done [ {| t_index := 0;
              t_hdr := {| hdr_type := 1; hdr_length := 2; hdr_handle := 5 |};
              t_address := 0; t_size := 5 |} ] ∧
  ¬ (4 ≤ hdr_length {| hdr_type := 1; hdr_length := 2; hdr_handle := 5 |}).
Proof. split; [reflexivity | cbn; lia]. Qed.

(** * String-table resolver *)

Lemma app_String (c : ascii) (s t : string) :
  (String c s +:+ t)%string = String c (s +:+ t).
Proof. reflexivity. Qed.

Lemma app_empty_l (t : string) : ("" +:+ t)%string = t.
Proof. reflexivity. Qed.

Lemma app_empty_r (s : string) : (s +:+ "")%string = s.
Proof. induction s as [|c s IH]; [done|]. by rewrite app_String, IH. Qed.

Lemma app_assoc_string (s t u : string) :
  ((s +:+ t) +:+ u)%string = (s +:+ (t +:+ u))%string.
Proof. induction s as [|c s IH]; [done|]. by rewrite !app_String, IH. Qed.

Lemma trim_right_all_space (ws : string) :
  all_space ws = true → trim_right ws = ""%string.
Proof.
  induction ws as [|c ws IH]; [done|]. cbn.
  intros [Hc Hws]%andb_true_iff. by rewrite IH, Hc.
Qed.

Lemma trim_right_app_space (text ws : string) :
  all_space ws = true →
  trim_right (text +:+ ws) = trim_right text.
Proof.
  intros Hws. induction text as [|c text IH].
  - by rewrite app_empty_l, trim_right_all_space.
  - rewrite app_String. cbn. by rewrite IH.
Qed.

Lemma trim_right_fixed (text : string) :
  (∀ t c, text = (t +:+ String c "")%string → is_space c = false) →
  trim_right text = text.
Proof.
  induction text as [|c text IH]; [done|]. intros Hlast. cbn.
  rewrite IH.
  - destruct text as [|c' text]; [|done].
    by rewrite (Hlast ""%string c).
  - intros t c' ->. apply (Hlast (String c t) c'). by rewrite app_String.
Qed.

Lemma trailing_stripped_unique (raw text : string) :
  trailing_stripped raw text → text = trim_right raw.
Proof.
  intros (ws & -> & Hws & Hlast).
  by rewrite trim_right_app_space, trim_right_fixed.
Qed.

Lemma trim_right_stripped (raw : string) :
  trailing_stripped raw (trim_right raw).
Proof.
  induction raw as [|c raw (ws & Hraw & Hws & Hlast)].
  - exists ""%string. split; [done|]. split; [done|]. by intros [|??] ?.
  - cbn. destruct (trim_right raw) as [|c' text] eqn:Htrim.
    + rewrite app_empty_l in Hraw. subst raw.
      destruct (is_space c) eqn:Hc.
      * exists (String c ws). split; [done|].
        split; [by cbn; rewrite Hc, Hws|]. by intros [|??] ?.
      * exists ws. split; [done|]. split; [done|].
        intros [|c1 [|??]] c2; cbn; intros [= <-]; done.
    + exists ws. split; [by rewrite app_String, <- Hraw|]. split; [done|].
      intros [|c1 t] c2.
      * rewrite app_empty_l. by intros [= _ ?].
      * rewrite app_String. intros [= <- Heq]. by eapply Hlast.
Qed.

Lemma skip_string_terminated (s tail : list byte) :
  Forall (λ b, b ≠ x00) s → skip_string (s ++ x00 :: tail) = Done tail.
Proof.
  induction 1 as [|b s Hb _ IH]; [done|]. cbn.
  destruct (Z.eqb_spec (u8 b) 0) as [Hz|]; [by apply u8_zero in Hz | done].
Qed.

Lemma c_str_terminated (s tail : list byte) :
  Forall (λ b, b ≠ x00) s → c_str (s ++ x00 :: tail) = Done s.
Proof.
  induction 1 as [|b s Hb _ IH]; [done|]. cbn.
  destruct (Z.eqb_spec (u8 b) 0) as [Hz|]; [by apply u8_zero in Hz|].
  by rewrite IH.
Qed.

Lemma skip_strings_terminated (k : nat) (strs : list (list byte))
    (rest : list byte) :
  Forall (Forall (λ b, b ≠ x00)) strs →
  (k ≤ length strs)%nat →
  skip_strings (S k) (nul_terminated strs ++ rest)
  = Done (nul_terminated (drop k strs) ++ rest).
Proof.
  revert strs. induction k as [|k IH]; intros strs Hstrs Hk; [done|].
  destruct Hstrs as [|s strs Hs Hstrs]; [cbn in Hk; lia|].
  change (skip_strings (S (S k)) ?bp)
    with (skip_string bp ≫= skip_strings (S k)).
  cbn [nul_terminated]. rewrite <- app_assoc, <- app_comm_cons.
  rewrite skip_string_terminated, bind_Done by done.
  apply IH; [done | cbn in Hk; lia].
Qed.

(** C6. Index 0 resolves to the empty string whatever the data pointer
    points at (the area is not read); an index [k] from 1 that names a string
    present in the area resolves to the [k]-th NUL-terminated string, counted
    from the first byte of the area, with its trailing whitespace removed
    and everything before it kept. *)
Theorem dmiString_resolves (mem : list byte) (data address offset index : nat)
    (text : string) :
  peek mem address offset = Done (Z.of_nat index) →
  resolves (drop data mem) index text →
  dmiString mem data address offset = Done text.
Proof.
  intros Hindex Hres. unfold dmiString. rewrite Hindex, bind_Done.
  destruct Hres as [|k strs s rest text Harea Hstrs Hs Htext]; [done|].
  destruct (Z.eqb_spec (Z.of_nat (S k)) 0); [lia|].
  rewrite Nat2Z.id, Harea.
  rewrite skip_strings_terminated;
    [|done | apply Nat.lt_le_incl; by eapply lookup_lt_Some].
  rewrite bind_Done, (drop_S _ _ _ Hs). cbn [nul_terminated].
  rewrite <- app_assoc, <- app_comm_cons.
  rewrite c_str_terminated, bind_Done.
  - by rewrite (trailing_stripped_unique _ _ Htext).
  - by eapply Forall_lookup_1 in Hstrs.
Qed.

Lemma dmiString_resolves_witness :
  dmiString padded_strings_mem 1 0 0 = Done "  DIMM 1"%string.
Proof.
  apply (dmiString_resolves padded_strings_mem 1 0 0 2).
  - reflexivity.
  - apply (resolves_kth _ 1
             [list_byte_of_string "A"; list_byte_of_string "  DIMM 1 " ++ [x09]]
             (list_byte_of_string "  DIMM 1 " ++ [x09]) [x00]).
    + reflexivity.
    + repeat constructor; discriminate.
    + reflexivity.
    + exists (String " " (String "009" "")). split; [reflexivity|].
      split; [reflexivity|].
      intros t c Heq.
      do 8 (destruct t as [|? t]; [by injection Heq as <- | injection Heq as <- Heq]).
      by destruct t.
Defined.

(** * Bit-field decoder *)

Lemma land_bit (i m : Z) :
  0 ≤ i → (Z.land (Z.shiftl 1 i) m =? 0) = negb (Z.testbit m i).
Proof.
  intros Hi. rewrite Z.shiftl_1_l.
  destruct (Z.testbit m i) eqn:Hbit; cbn.
  - apply Z.eqb_neq. intros Hz.
    assert (Z.testbit (Z.land (2 ^ i) m) i = true) as Hone.
    { by rewrite Z.land_spec, Z.pow2_bits_true, Hbit. }
    rewrite Hz, Z.bits_0 in Hone. discriminate.
  - apply Z.eqb_eq. apply Z.bits_inj'. intros j Hj.
    rewrite Z.land_spec, Z.bits_0, Z.pow2_bits_eqb by done.
    destruct (Z.eqb_spec i j) as [->|]; [by rewrite Hbit | done].
Qed.

Lemma pop_back_app (a b : string) :
  b ≠ ""%string → pop_back (a +:+ b) = (a +:+ pop_back b)%string.
Proof.
  intros Hb. induction a as [|c a IH]; [done|].
  rewrite !app_String, <- IH. cbn [pop_back].
  destruct (a +:+ b)%string eqn:Hab; [|done].
  by destruct a, b.
Qed.

Lemma pop_back_spaced (labels : list string) :
  pop_back (spaced labels) = join_space labels.
Proof.
  induction labels as [|label [|label' labels] IH]; [done| |].
  - cbn [spaced join_space]. rewrite app_empty_r, pop_back_app by done.
    apply app_empty_r.
  - change (spaced (label :: ?l)) with ((label +:+ " ") +:+ spaced l)%string.
    rewrite pop_back_app, IH; [|by destruct label'].
    cbn [join_space]. by rewrite app_assoc_string.
Qed.

Lemma omap_all_None {A B} (f : A → option B) (l : list A) :
  Forall (λ x, f x = None) l → omap f l = [].
Proof. induction 1 as [|x l Hx _ IH]; [done|]. cbn. by rewrite Hx. Qed.

(** On a dense table with at most 31 entries the loop appends, from [i] on,
    the label of every set bit followed by a space. *)
Lemma bitfield_loop_dense (bitField : Z) (table : gmap Z string) :
  dense table →
  (size table ≤ 31)%nat →
  ∀ (n fuel : nat) (i : Z) (result : string),
    0 ≤ i →
    i + Z.of_nat n = Z.of_nat (size table) →
    (n < fuel)%nat →
    bitfield_loop fuel bitField table i result
    = Done (result +:+
            spaced (omap (λ j, if Z.testbit bitField j then table !! j
                               else None) (seqZ i (Z.of_nat n))))%string.
Proof.
  intros Hdense Hsize n.
  induction n as [|n IH]; intros fuel i result Hi Hn Hfuel;
    (destruct fuel as [|fuel]; [lia|]); cbn [bitfield_loop].
  - destruct (Z.ltb_spec i (Z.of_nat (size table))); [lia|].
    by rewrite app_empty_r.
  - destruct (Z.ltb_spec i (Z.of_nat (size table))); [|lia].
    unfold int_shl_1. destruct (Z.ltb_spec i 31); [|lia].
    rewrite bind_Done. unfold to_size_t.
    rewrite Z.mod_small.
    2:{ rewrite Z.shiftl_1_l. split; [lia|].
        apply Z.pow_lt_mono_r; lia. }
    rewrite land_bit by done.
    rewrite seqZ_cons by lia. cbn [omap list_omap].
    replace ((i + 1) `mod` 256) with (Z.succ i) by (rewrite Z.mod_small; lia).
    replace (Z.pred (Z.of_nat (S n))) with (Z.of_nat n) by lia.
    destruct (Z.testbit bitField i); cbn [negb].
    + destruct (proj2 (Hdense i)) as [label Hlabel]; [lia|].
      unfold map_at. rewrite Hlabel, bind_Done.
      rewrite IH by lia. cbn [spaced].
      by rewrite !app_assoc_string.
    + by rewrite IH by lia.
Qed.

Lemma dmiBitFieldToStr_dense (bitField : Z) (table : gmap Z string) :
  dense table →
  (size table ≤ 31)%nat →
  dmiBitFieldToStr bitField table = Done (decodeBits bitField table).
Proof.
  intros Hdense Hsize. unfold dmiBitFieldToStr.
  rewrite (bitfield_loop_dense bitField table Hdense Hsize (size table))
    by lia.
  rewrite bind_Done, app_empty_l. f_equal.
  unfold decodeBits, set_labels.
  replace 256 with (Z.of_nat (size table) + (256 - Z.of_nat (size table)))
    by lia.
  rewrite seqZ_app, omap_app by lia.
  rewrite (omap_all_None _ (seqZ _ (256 - _))), app_nil_r.
  - rewrite <- pop_back_spaced. by destruct (spaced _).
  - apply Forall_forall. intros j [Hj _]%elem_of_seqZ.
    destruct (Z.testbit bitField j); [|done].
    apply eq_None_not_Some. intros Hsome. apply Hdense in Hsome. lia.
Qed.

Lemma details_table_size : size kSMBIOSMemoryDetailsTable = 16%nat.
Proof. vm_compute. reflexivity. Qed.

Lemma details_table_keys (i : Z) :
  is_Some (kSMBIOSMemoryDetailsTable !! i) ↔ 0 ≤ i ≤ 15.
Proof.
  split.
  - intros [label Hlabel]. unfold kSMBIOSMemoryDetailsTable in Hlabel.
    apply elem_of_list_to_map_2 in Hlabel.
    repeat (apply elem_of_cons in Hlabel as [[= -> _]|Hlabel]; [lia|]).
    by apply elem_of_nil in Hlabel.
  - intros Hi.
    assert (i = 0 ∨ i = 1 ∨ i = 2 ∨ i = 3 ∨ i = 4 ∨ i = 5 ∨ i = 6 ∨ i = 7 ∨
            i = 8 ∨ i = 9 ∨ i = 10 ∨ i = 11 ∨ i = 12 ∨ i = 13 ∨ i = 14 ∨
            i = 15) as Hcases by lia.
    destruct_or!; subst i; vm_compute; eauto.
Qed.

Lemma details_table_dense : dense kSMBIOSMemoryDetailsTable.
Proof.
  intros i. rewrite details_table_keys, details_table_size. lia.
Qed.

(** The loop looks a label up only at indices below the size of the table:
    tables of the same size that agree there give the same outcome. *)
Lemma bitfield_loop_ext (bitField : Z) (table table' : gmap Z string) :
  size table' = size table →
  (∀ i, 0 ≤ i < Z.of_nat (size table) → table' !! i = table !! i) →
  ∀ (fuel : nat) (i : Z) (result : string),
    0 ≤ i →
    bitfield_loop fuel bitField table' i result
    = bitfield_loop fuel bitField table i result.
Proof.
  intros Hsize Hagree fuel.
  induction fuel as [|fuel IH]; intros i result Hi; [done|].
  cbn [bitfield_loop]. rewrite Hsize.
  destruct (Z.ltb_spec i (Z.of_nat (size table))); [|done].
  destruct (int_shl_1 i) as [bit|]; [|done]. rewrite !bind_Done.
  assert (0 ≤ (i + 1) `mod` 256) by (apply Z.mod_pos_bound; lia).
  destruct (Z.land (to_size_t bit) bitField =? 0); [by apply IH|].
  unfold map_at. rewrite Hagree by lia.
  destruct (table !! i); [|done]. rewrite !bind_Done. by apply IH.
Qed.

Lemma decodeBits_ignores_high (mask : Z) (table : gmap Z string) :
  dense table →
  (size table ≤ 16)%nat →
  decodeBits (mask `mod` 65536) table = decodeBits mask table.
Proof.
  intros Hdense Hsize. unfold decodeBits, set_labels. f_equal.
  apply list_omap_ext, Forall_Forall2_diag, Forall_forall.
  intros j [Hj _]%elem_of_seqZ.
  destruct (Z.lt_ge_cases j 16) as [Hlow|Hhigh].
  - change 65536 with (2 ^ 16). by rewrite Z.mod_pow2_bits_low by lia.
  - assert (table !! j = None) as ->; [|by do 2 destruct (Z.testbit _ _)].
    apply eq_None_not_Some. intros Hsome. apply Hdense in Hsome. lia.
Qed.




Lemma form_factor_table_size : size kSMBIOSMemoryFormFactorTable = 15%nat.
Proof. vm_compute. reflexivity. Qed.

Lemma moved_table_size :
  size moved_table = size kSMBIOSMemoryFormFactorTable.
Proof. vm_compute. reflexivity. Qed.





(** The form-factor table that ships with the decoder has the keys 1 to 15,
    which is not a table the specification has in mind: with bit 0 set the
    decoder throws, and the label of bit 15 is never reached. *)
Lemma dmiBitFieldToStr_sparse_table :
  kSMBIOSMemoryFormFactorTable !! 0 = None ∧
  decodeBits 1 kSMBIOSMemoryFormFactorTable = ""%string ∧
  dmiBitFieldToStr 1 kSMBIOSMemoryFormFactorTable = Fault out_of_range ∧
  dmiBitFieldToStr 1 kSMBIOSMemoryFormFactorTable ≠ Done ""%string.
Proof. repeat split; (reflexivity || discriminate). Qed.

(** C10. Decoding any mask, a 16-bit one in particular, against the
    memory-detail table returns a string (no fault, no exception); the keys
    of that table are exactly 0 to 15; the decoder consults a table, this
    one or any other, only through its size and its entries below its size:
    two tables of the same size with the same entries there give the same
    outcome, however they differ elsewhere; and the bits of the mask at
    positions 16 and above do not matter. *)
Theorem memory_type_details_total (bitField : Z) :
  (∃ details,
     dmiBitFieldToStr bitField kSMBIOSMemoryDetailsTable = Done details) ∧
  (∀ i, is_Some (kSMBIOSMemoryDetailsTable !! i) ↔ 0 ≤ i ≤ 15) ∧
  (∀ table table' : gmap Z string,
     size table' = size table →
     (∀ i, 0 ≤ i < Z.of_nat (size table) → table' !! i = table !! i) →
     dmiBitFieldToStr bitField table' = dmiBitFieldToStr bitField table) ∧
  dmiBitFieldToStr bitField kSMBIOSMemoryDetailsTable
  = dmiBitFieldToStr (bitField `mod` 65536) kSMBIOSMemoryDetailsTable.
Proof.
  assert (size kSMBIOSMemoryDetailsTable ≤ 31)%nat as Hsize
    by (rewrite details_table_size; lia).
  split; [|split; [|split]].
  - eexists. by apply dmiBitFieldToStr_dense, Hsize; apply details_table_dense.
  - apply details_table_keys.
  - intros table table' Hsame Hagree. unfold dmiBitFieldToStr.
    by rewrite (bitfield_loop_ext bitField table table' Hsame Hagree).
  - rewrite !dmiBitFieldToStr_dense by (done || apply details_table_dense).
    f_equal. symmetry.
    apply decodeBits_ignores_high; [apply details_table_dense|].
    rewrite details_table_size. lia.
Qed.

Lemma moved_table_agrees (i : Z) :
  0 ≤ i < Z.of_nat (size kSMBIOSMemoryFormFactorTable) →
  moved_table !! i = kSMBIOSMemoryFormFactorTable !! i.
Proof.
  rewrite form_factor_table_size. intros Hi. unfold moved_table.
  rewrite lookup_insert_ne by lia. apply lookup_delete_ne. lia.
Qed.

Lemma moved_table_differs :
  moved_table !! 15 = None ∧
  kSMBIOSMemoryFormFactorTable !! 15 = Some "FB-DIMM"%string.
Proof. split; vm_compute; reflexivity. Qed.

Lemma memory_type_details_total_witness :
  (∃ details,
     dmiBitFieldToStr 0x12080 kSMBIOSMemoryDetailsTable = Done details) ∧
  (moved_table !! 15 = None ∧
   kSMBIOSMemoryFormFactorTable !! 15 = Some "FB-DIMM"%string) ∧
  dmiBitFieldToStr 0x8202 moved_table
  = dmiBitFieldToStr 0x8202 kSMBIOSMemoryFormFactorTable ∧
  dmiBitFieldToStr 0x12080 kSMBIOSMemoryDetailsTable
  = dmiBitFieldToStr (0x12080 `mod` 65536) kSMBIOSMemoryDetailsTable.
Proof.
  destruct (memory_type_details_total 0x12080) as (Htotal & _ & _ & Hhigh).
  destruct (memory_type_details_total 0x8202) as (_ & _ & Hbelow & _).
  split; [exact Htotal|]. split; [exact moved_table_differs|].
  split; [|exact Hhigh].
  apply Hbelow; [exact moved_table_size | exact moved_table_agrees].
Defined.

(** * Memory Device decoder *)

Lemma lookup_assign_if_ne (c : bool) (k k' : string) (v : value)
    (r : gmap string value) :
  k' ≠ k → assign_if c k' v r !! k = r !! k.
Proof. intros Hne. destruct c; [by apply lookup_insert_ne | done]. Qed.

Lemma lookup_assign_if_eq (c : bool) (k : string) (v : value)
    (r : gmap string value) :
  assign_if c k v r !! k = if c then Some v else r !! k.
Proof. destruct c; [by apply lookup_insert_eq | done]. Qed.

Lemma lookup_assign_found_ne (found : option string) (k k' : string)
    (r : gmap string value) :
  k' ≠ k → assign_found k' found r !! k = r !! k.
Proof. intros Hne. destruct found; [by apply lookup_insert_ne | done]. Qed.

(** Take the successful run [H] of the decoder apart, read by read. *)
Tactic Notation "bind_inv" hyp(H) "as" ident(x) ident(Hx) :=
  apply bind_Done_inv in H as (x & Hx & H); cbv beta in H.

(** Look a field up in a row built by the decoder. *)
Ltac row_lookup :=
  repeat first
    [ rewrite lookup_insert_eq
    | rewrite lookup_assign_if_eq
    | rewrite lookup_insert_ne by done
    | rewrite lookup_assign_if_ne by done
    | rewrite lookup_assign_found_ne by done
    | rewrite lookup_empty ].

(** Enter the decoder in [H] past its guard, then name every value it reads;
    [H] ends up as the equation that gives the new list of results. *)
Ltac decode_inv H Htype Hsize :=
  unfold genSMBIOSMemoryDevices in H;
  rewrite Htype, Z.eqb_refl in H;
  rewrite (proj2 (Nat.ltb_ge _ _) Hsize) in H;
  lazymatch type of H with
  | (if _ then _ else ?body) = ?rhs => change (body = rhs) in H
  end;
  bind_inv H as handle Hhandle;
  bind_inv H as array_handle Harray_handle;
  bind_inv H as form_factor Hform_factor;
  bind_inv H as total_width Htotal_width;
  bind_inv H as data_width Hdata_width;
  bind_inv H as size_word Hsize_word;
  bind_inv H as sized Hsized;
  bind_inv H as set Hset;
  bind_inv H as device_locator Hdevice_locator;
  bind_inv H as bank_locator Hbank_locator;
  bind_inv H as memory_type Hmemory_type;
  bind_inv H as details_word Hdetails_word;
  bind_inv H as details Hdetails;
  bind_inv H as max_speed Hmax_speed;
  bind_inv H as clock_speed Hclock_speed;
  bind_inv H as manufacturer Hmanufacturer;
  bind_inv H as serial_number Hserial_number;
  bind_inv H as asset_tag Hasset_tag;
  bind_inv H as part_number Hpart_number;
  bind_inv H as min_voltage Hmin_voltage;
  bind_inv H as max_voltage Hmax_voltage;
  bind_inv H as configured_voltage Hconfigured_voltage;
  apply Done_inj in H; symmetry in H.

Lemma dmiString_index_zero (mem : list byte) (data address offset : nat) :
  peek mem address offset = Done 0 →
  dmiString mem data address offset = Done ""%string.
Proof. intros Hindex. unfold dmiString. by rewrite Hindex. Qed.

(** What a successful field read returns, in terms of the bytes of the
    buffer: the byte at the lowest offset is the least significant one. *)
Lemma peek_Done_byte (mem : list byte) (address offset : nat) (v : Z) :
  peek mem address offset = Done v →
  ∃ b, mem !! (address + offset)%nat = Some b ∧ v = u8 b.
Proof.
  unfold peek. destruct (mem !! _) as [b|]; [|done].
  intros [= <-]. by exists b.
Qed.

Lemma dmiToWord_Done_bytes (mem : list byte) (address offset : nat) (w : Z) :
  dmiToWord mem address offset = Done w →
  ∃ b0 b1,
    mem !! (address + offset)%nat = Some b0 ∧
    mem !! (address + (offset + 1))%nat = Some b1 ∧
    w = u8 b0 + 256 * u8 b1.
Proof.
  intros H. pose proof H as Hw. unfold dmiToWord in H.
  apply bind_Done_inv in H as (hi & Hhi & H).
  apply bind_Done_inv in H as (lo & Hlo & _).
  rewrite (dmiToWord_little_endian _ _ _ _ _ Hlo Hhi) in Hw.
  apply Done_inj in Hw as <-.
  apply peek_Done_byte in Hhi as (b1 & Hb1 & ->).
  apply peek_Done_byte in Hlo as (b0 & Hb0 & ->).
  exists b0, b1. split; [done|]. split; [done|]. pow_lia.
Qed.

Lemma dmiToDWord_Done_bytes (mem : list byte) (address offset : nat) (d : Z) :
  dmiToDWord mem address offset = Done d →
  ∃ b0 b1 b2 b3,
    mem !! (address + offset)%nat = Some b0 ∧
    mem !! (address + (offset + 1))%nat = Some b1 ∧
    mem !! (address + (offset + 2))%nat = Some b2 ∧
    mem !! (address + (offset + 3))%nat = Some b3 ∧
    d = u8 b0 + 256 * u8 b1 + 65536 * u8 b2 + 16777216 * u8 b3.
Proof.
  intros H. pose proof H as Hd. unfold dmiToDWord in H.
  apply bind_Done_inv in H as (v3 & H3 & H).
  apply bind_Done_inv in H as (v2 & H2 & H).
  apply bind_Done_inv in H as (v1 & H1 & H).
  apply bind_Done_inv in H as (v0 & H0 & _).
  rewrite (dmiToDWord_little_endian _ _ _ _ _ _ _ H0 H1 H2 H3) in Hd.
  apply Done_inj in Hd as <-.
  apply peek_Done_byte in H3 as (b3 & Hb3 & ->).
  apply peek_Done_byte in H2 as (b2 & Hb2 & ->).
  apply peek_Done_byte in H1 as (b1 & Hb1 & ->).
  apply peek_Done_byte in H0 as (b0 & Hb0 & ->).
  exists b0, b1, b2, b3. repeat (split; [done|]). pow_lia.
Qed.

(** A successful run of the decoder on a type-17 structure whose span has
    at least 0x12 bytes: [results'] is [results] with one more record. *)
Section MemoryDevice.

Variables (mem : list byte) (index : nat) (hdr : SMBStructHeader).
Variables (address size : nat) (results results' : list (gmap string value)).

Hypothesis Hdecoded :
  genSMBIOSMemoryDevices mem index hdr address size results = Done results'.
Hypothesis Htype : hdr_type hdr = kSMBIOSTypeMemoryDevice.
Hypothesis Hsize : (0x12 ≤ size)%nat.

(** C4. In the record decoded from a type-17 structure, the field [size]
    depends on the word at offset 0x0C, the little-endian value of the bytes
    at 0x0C and 0x0D.  When that word is 0x7FFF, [size] is the 32-bit
    little-endian dword at offset 0x1C: the value of the four bytes at 0x1C
    to 0x1F, the byte at 0x1C being the least significant.  When the word is
    0xFFFF the field is absent, and otherwise it is the word. *)
Theorem memory_device_size :
  ∃ (r : gmap string value) (word : Z) (w0 w1 : byte),
    results' = results ++ [r] ∧
    mem !! (address + 0x0C)%nat = Some w0 ∧
    mem !! (address + 0x0D)%nat = Some w1 ∧
    word = u8 w0 + 256 * u8 w1 ∧
    dmiToWord mem address 0x0C = Done word ∧
    (word = 0x7FFF →
     ∃ b0 b1 b2 b3 : byte,
       mem !! (address + 0x1C)%nat = Some b0 ∧
       mem !! (address + 0x1D)%nat = Some b1 ∧
       mem !! (address + 0x1E)%nat = Some b2 ∧
       mem !! (address + 0x1F)%nat = Some b3 ∧
       dmiToDWord mem address 0x1C
       = Done (u8 b0 + 256 * u8 b1 + 65536 * u8 b2 + 16777216 * u8 b3) ∧
       r !! "size"
       = Some (INTEGER
                 (u8 b0 + 256 * u8 b1 + 65536 * u8 b2 + 16777216 * u8 b3))) ∧
    (word = 0xFFFF → r !! "size" = None) ∧
    (word ≠ 0x7FFF → word ≠ 0xFFFF → r !! "size" = Some (INTEGER word)).
Proof.
  pose proof Hdecoded as H. decode_inv H Htype Hsize.
  destruct (dmiToWord_Done_bytes _ _ _ _ Hsize_word)
    as (w0 & w1 & Hw0 & Hw1 & Hword).
  eexists _, size_word, w0, w1. split; [exact H|].
  split; [exact Hw0|]. split; [exact Hw1|]. split; [exact Hword|].
  split; [done|].
  row_lookup.
  destruct (Z.eqb_spec size_word 0xFFFF) as [Hff|Hff]; cbn [negb] in Hsized.
  { apply Done_inj in Hsized as <-. row_lookup.
    split; [lia|]. split; [done | lia]. }
  destruct (Z.eqb_spec size_word 0x7FFF) as [H7f|H7f]; cbn [negb] in Hsized.
  - bind_inv Hsized as dword Hdword. apply Done_inj in Hsized as <-.
    row_lookup.
    destruct (dmiToDWord_Done_bytes _ _ _ _ Hdword)
      as (b0 & b1 & b2 & b3 & Hb0 & Hb1 & Hb2 & Hb3 & Hvalue).
    split; [|split; lia].
    intros _. exists b0, b1, b2, b3.
    split; [exact Hb0|]. split; [exact Hb1|]. split; [exact Hb2|].
    split; [exact Hb3|]. by rewrite <- Hvalue.
  - apply Done_inj in Hsized as <-. row_lookup.
    split; [lia|]. split; [lia | done].
Qed.

(** C5. In the record decoded from a type-17 structure every sentinel
    leaves its field absent: 0xFFFF for the two widths, 0xFF for [set],
    0x0000 and 0xFFFF for the two speeds, 0x0000 for the three voltages. *)
Theorem memory_device_sentinels :
  ∃ r : gmap string value,
    results' = results ++ [r] ∧
    (dmiToWord mem address 0x08 = Done 0xFFFF → r !! "total_width" = None) ∧
    (dmiToWord mem address 0x0A = Done 0xFFFF → r !! "data_width" = None) ∧
    (peek mem address 0x0F = Done 0xFF → r !! "set" = None) ∧
    (dmiToWord mem address 0x15 = Done 0x0000 ∨
     dmiToWord mem address 0x15 = Done 0xFFFF → r !! "max_speed" = None) ∧
    (dmiToWord mem address 0x20 = Done 0x0000 ∨
     dmiToWord mem address 0x20 = Done 0xFFFF →
     r !! "configured_clock_speed" = None) ∧
    (dmiToWord mem address 0x22 = Done 0x0000 → r !! "min_voltage" = None) ∧
    (dmiToWord mem address 0x24 = Done 0x0000 → r !! "max_voltage" = None) ∧
    (dmiToWord mem address 0x26 = Done 0x0000 →
     r !! "configured_voltage" = None).
Proof.
  pose proof Hdecoded as H. decode_inv H Htype Hsize.
  assert (sized !! "total_width"
          = if negb (total_width =? 0xFFFF) then Some (INTEGER total_width)
            else None) as Htw.
  { destruct (negb (size_word =? 0xFFFF)); [destruct (negb (size_word =? 0x7FFF));
      [|bind_inv Hsized as dword Hdword] |];
      apply Done_inj in Hsized as <-; by row_lookup. }
  assert (sized !! "data_width"
          = if negb (data_width =? 0xFFFF) then Some (INTEGER data_width)
            else None) as Hdw.
  { destruct (negb (size_word =? 0xFFFF)); [destruct (negb (size_word =? 0x7FFF));
      [|bind_inv Hsized as dword Hdword] |];
      apply Done_inj in Hsized as <-; by row_lookup. }
  assert (∀ k, k ≠ "size"%string → k ≠ "data_width"%string →
               k ≠ "total_width"%string → k ≠ "form_factor"%string →
               k ≠ "array_handle"%string → k ≠ "handle"%string →
               sized !! k = None) as Hother.
  { intros k ? ? ? ? ? ?.
    destruct (negb (size_word =? 0xFFFF)); [destruct (negb (size_word =? 0x7FFF));
      [|bind_inv Hsized as dword Hdword] |];
      apply Done_inj in Hsized as <-; by row_lookup. }
  eexists. split; [exact H|].
  repeat split.
  - rewrite Htotal_width. intros [= ->]. by row_lookup.
  - rewrite Hdata_width. intros [= ->]. by row_lookup.
  - rewrite Hset. intros [= ->]. row_lookup. by apply Hother.
  - rewrite Hmax_speed. intros [[= ->]|[= ->]]; row_lookup; by apply Hother.
  - rewrite Hclock_speed. intros [[= ->]|[= ->]]; row_lookup; by apply Hother.
  - rewrite Hmin_voltage. intros [= ->]. row_lookup. by apply Hother.
  - rewrite Hmax_voltage. intros [= ->]. row_lookup. by apply Hother.
  - rewrite Hconfigured_voltage. intros [= ->]. row_lookup. by apply Hother.
Qed.

(** C3 (amended). In the record decoded from a type-17 structure the six
    string-indexed fields and [memory_type_details] are always present; a
    string-indexed field whose index byte is 0 holds the empty string, and
    [memory_type_details] holds the empty string when the bit-field decode
    of the word at 0x13 is empty. *)
Theorem memory_device_empty_strings :
  ∃ r : gmap string value,
    results' = results ++ [r] ∧
    Forall (λ k, ∃ text, r !! k = Some (TEXT text))
      [ "device_locator"; "bank_locator"; "manufacturer"; "serial_number";
        "asset_tag"; "part_number"; "memory_type_details" ]%string ∧
    (peek mem address 0x10 = Done 0 →
     r !! "device_locator" = Some (TEXT "")) ∧
    (peek mem address 0x11 = Done 0 →
     r !! "bank_locator" = Some (TEXT "")) ∧
    (peek mem address 0x17 = Done 0 →
     r !! "manufacturer" = Some (TEXT "")) ∧
    (peek mem address 0x18 = Done 0 →
     r !! "serial_number" = Some (TEXT "")) ∧
    (peek mem address 0x19 = Done 0 →
     r !! "asset_tag" = Some (TEXT "")) ∧
    (peek mem address 0x1A = Done 0 →
     r !! "part_number" = Some (TEXT "")) ∧
    (∀ word, dmiToWord mem address 0x13 = Done word →
             dmiBitFieldToStr word kSMBIOSMemoryDetailsTable = Done ""%string →
             r !! "memory_type_details" = Some (TEXT "")).
Proof.
  pose proof Hdecoded as H. decode_inv H Htype Hsize.
  eexists. split; [exact H|].
  split; [repeat constructor; eexists; by row_lookup|].
  repeat split.
  - intros Hz. rewrite (dmiString_index_zero _ _ _ _ Hz) in Hdevice_locator.
    apply Done_inj in Hdevice_locator as <-. by row_lookup.
  - intros Hz. rewrite (dmiString_index_zero _ _ _ _ Hz) in Hbank_locator.
    apply Done_inj in Hbank_locator as <-. by row_lookup.
  - intros Hz. rewrite (dmiString_index_zero _ _ _ _ Hz) in Hmanufacturer.
    apply Done_inj in Hmanufacturer as <-. by row_lookup.
  - intros Hz. rewrite (dmiString_index_zero _ _ _ _ Hz) in Hserial_number.
    apply Done_inj in Hserial_number as <-. by row_lookup.
  - intros Hz. rewrite (dmiString_index_zero _ _ _ _ Hz) in Hasset_tag.
    apply Done_inj in Hasset_tag as <-. by row_lookup.
  - intros Hz. rewrite (dmiString_index_zero _ _ _ _ Hz) in Hpart_number.
    apply Done_inj in Hpart_number as <-. by row_lookup.
  - intros word Hword Hempty. rewrite Hdetails_word in Hword.
    apply Done_inj in Hword as <-. rewrite Hdetails in Hempty.
    apply Done_inj in Hempty as ->. by row_lookup.
Qed.

End MemoryDevice.

Lemma scenario_walk :
  tables {| table_data_ := Some scenario_mem |}
  = Done [ {| t_index := 0; t_hdr := scenario_hdr; t_address := 0;
              t_size := 43 |};
           {| t_index := 1;
              t_hdr := {| hdr_type := 127; hdr_length := 4; hdr_handle := 1 |};
              t_address := 43; t_size := 4 |} ].
Proof. reflexivity. Qed.

Lemma scenario_decode :
  genSMBIOSMemoryDevices scenario_mem 0 scenario_hdr 0 43 []
  = Done [scenario_row].
Proof. vm_cast_no_check (eq_refl (Done [scenario_row])). Qed.

Lemma extended_walk :
  tables {| table_data_ := Some extended_mem |}
  = Done [ {| t_index := 0; t_hdr := extended_hdr; t_address := 0;
              t_size := 59 |};
           {| t_index := 1;
              t_hdr := {| hdr_type := 127; hdr_length := 4; hdr_handle := 2 |};
              t_address := 59; t_size := 4 |} ].
Proof. reflexivity. Qed.

Lemma extended_decode :
  genSMBIOSMemoryDevices extended_mem 0 extended_hdr 0 59 []
  = Done [extended_row].
Proof. vm_cast_no_check (eq_refl (Done [extended_row])). Qed.

Lemma memory_device_size_witness :
  ∃ (r : gmap string value) (word : Z) (w0 w1 : byte),
    [extended_row] = [] ++ [r] ∧
    extended_mem !! (0 + 0x0C)%nat = Some w0 ∧
    extended_mem !! (0 + 0x0D)%nat = Some w1 ∧
    word = u8 w0 + 256 * u8 w1 ∧
    dmiToWord extended_mem 0 0x0C = Done word ∧
    (word = 0x7FFF →
     ∃ b0 b1 b2 b3 : byte,
       extended_mem !! (0 + 0x1C)%nat = Some b0 ∧
       extended_mem !! (0 + 0x1D)%nat = Some b1 ∧
       extended_mem !! (0 + 0x1E)%nat = Some b2 ∧
       extended_mem !! (0 + 0x1F)%nat = Some b3 ∧
       dmiToDWord extended_mem 0 0x1C
       = Done (u8 b0 + 256 * u8 b1 + 65536 * u8 b2 + 16777216 * u8 b3) ∧
       r !! "size"
       = Some (INTEGER
                 (u8 b0 + 256 * u8 b1 + 65536 * u8 b2 + 16777216 * u8 b3))) ∧
    (word = 0xFFFF → r !! "size" = None) ∧
    (word ≠ 0x7FFF → word ≠ 0xFFFF → r !! "size" = Some (INTEGER word)).
Proof.
  apply (memory_device_size extended_mem 0 extended_hdr 0 59 []
           [extended_row]).
  - exact extended_decode.
  - reflexivity.
  - lia.
Defined.

Lemma memory_device_sentinels_witness :
  ∃ r : gmap string value,
    [extended_row] = [] ++ [r] ∧
    (dmiToWord extended_mem 0 0x08 = Done 0xFFFF →
     r !! "total_width" = None) ∧
    (dmiToWord extended_mem 0 0x0A = Done 0xFFFF →
     r !! "data_width" = None) ∧
    (peek extended_mem 0 0x0F = Done 0xFF → r !! "set" = None) ∧
    (dmiToWord extended_mem 0 0x15 = Done 0x0000 ∨
     dmiToWord extended_mem 0 0x15 = Done 0xFFFF →
     r !! "max_speed" = None) ∧
    (dmiToWord extended_mem 0 0x20 = Done 0x0000 ∨
     dmiToWord extended_mem 0 0x20 = Done 0xFFFF →
     r !! "configured_clock_speed" = None) ∧
    (dmiToWord extended_mem 0 0x22 = Done 0x0000 →
     r !! "min_voltage" = None) ∧
    (dmiToWord extended_mem 0 0x24 = Done 0x0000 →
     r !! "max_voltage" = None) ∧
    (dmiToWord extended_mem 0 0x26 = Done 0x0000 →
     r !! "configured_voltage" = None).
Proof.
  apply (memory_device_sentinels extended_mem 0 extended_hdr 0 59 []
           [extended_row]).
  - exact extended_decode.
  - reflexivity.
  - lia.
Defined.

Lemma memory_device_empty_strings_witness :
  ∃ r : gmap string value,
    [scenario_row] = [] ++ [r] ∧
    Forall (λ k, ∃ text, r !! k = Some (TEXT text))
      [ "device_locator"; "bank_locator"; "manufacturer"; "serial_number";
        "asset_tag"; "part_number"; "memory_type_details" ]%string ∧
    (peek scenario_mem 0 0x10 = Done 0 →
     r !! "device_locator" = Some (TEXT "")) ∧
    (peek scenario_mem 0 0x11 = Done 0 →
     r !! "bank_locator" = Some (TEXT "")) ∧
    (peek scenario_mem 0 0x17 = Done 0 →
     r !! "manufacturer" = Some (TEXT "")) ∧
    (peek scenario_mem 0 0x18 = Done 0 →
     r !! "serial_number" = Some (TEXT "")) ∧
    (peek scenario_mem 0 0x19 = Done 0 →
     r !! "asset_tag" = Some (TEXT "")) ∧
    (peek scenario_mem 0 0x1A = Done 0 →
     r !! "part_number" = Some (TEXT "")) ∧
    (∀ word, dmiToWord scenario_mem 0 0x13 = Done word →
             dmiBitFieldToStr word kSMBIOSMemoryDetailsTable = Done ""%string →
             r !! "memory_type_details" = Some (TEXT "")).
Proof.
  apply (memory_device_empty_strings scenario_mem 0 scenario_hdr 0 43 []
           [scenario_row]).
  - exact scenario_decode.
  - reflexivity.
  - lia.
Defined.

(** A record decoded from a structure whose bank-locator index is 0 and
    whose detail word decodes to nothing: both fields are present and hold
    the empty string. *)
Lemma empty_string_is_present :
  genSMBIOSMemoryDevices scenario_mem 0 scenario_hdr 0 43 []
  = Done [scenario_row] ∧
  peek scenario_mem 0 0x11 = Done 0 ∧
  scenario_row !! "bank_locator" = Some (TEXT "") ∧
  scenario_row !! "bank_locator" ≠ None ∧
  dmiToWord scenario_mem 0 0x13 = Done 0 ∧
  dmiBitFieldToStr 0 kSMBIOSMemoryDetailsTable = Done ""%string ∧
  scenario_row !! "memory_type_details" = Some (TEXT "") ∧
  scenario_row !! "memory_type_details" ≠ None.
Proof.
  split; [exact scenario_decode|].
  repeat split; (vm_compute; reflexivity) || (vm_compute; discriminate).
Qed.

(** C1 (the code departs from it). A type-17 structure whose span is exactly
    0x12 bytes passes the guard of the decoder, which then reads offset 0x12
    past the span and the buffer.  With string index 4 and two strings
    in the trailing area, the resolver walks over the closing NUL into the
    next structure and returns its first bytes as the device locator. *)
Theorem memory_device_reads_past_span :
  tables {| table_data_ := Some truncated_mem |}
  = Done [ {| t_index := 0; t_hdr := truncated_hdr; t_address := 0;
              t_size := 0x12 |} ] ∧
  peek truncated_mem 0 0x12 = Fault OutOfBounds ∧
  genSMBIOSMemoryDevices truncated_mem 0 truncated_hdr 0 0x12 []
  = Fault OutOfBounds ∧
  tables {| table_data_ := Some overrun_mem |}
  = Done [ {| t_index := 0; t_hdr := extended_hdr; t_address := 0;
              t_size := 59 |};
           {| t_index := 1;
              t_hdr := {| hdr_type := 127; hdr_length := 4; hdr_handle := 2 |};
              t_address := 59; t_size := 4 |} ] ∧
  peek overrun_mem 0 0x10 = Done 4 ∧
  take 3 (drop 59 overrun_mem) = [x7f; x04; x02] ∧
  dmiString overrun_mem (0 + 0x28) 0 0x10
  = Done (string_of_list_byte [x7f; x04; x02]) ∧
  ∃ r, genSMBIOSMemoryDevices overrun_mem 0 extended_hdr 0 59 [] = Done [r] ∧
       r !! "device_locator"
       = Some (TEXT (string_of_list_byte [x7f; x04; x02])).
Proof.
  repeat split; try (vm_compute; reflexivity).
  exists (<["device_locator" := TEXT (string_of_list_byte [x7f; x04; x02])]>
            extended_row).
  split.
  - vm_cast_no_check
      (eq_refl (Done [<["device_locator" :=
                         TEXT (string_of_list_byte [x7f; x04; x02])]>
                        extended_row])).
  - apply lookup_insert_eq.
Qed.

(** * Further properties of the field codec *)

(** The word at an offset is the little-endian value of the two bytes there,
    below 2^16; the read fails exactly when one of the two bytes lies
    outside the buffer. *)
Theorem dmiToWord_value (mem : list byte) (address offset : nat) :
  dmiToWord mem address offset
  = match mem !! (address + offset)%nat,
          mem !! (address + (offset + 1))%nat with
    | Some b0, Some b1 => Done (u8 b0 + 256 * u8 b1)
    | _, _ => Fault OutOfBounds
    end ∧
  ∀ w, dmiToWord mem address offset = Done w → 0 ≤ w < 65536.
Proof.
  split; [|intros w Hw; by apply dmiToWord_Done_inv in Hw as [_ ?]].
  unfold dmiToWord, peek.
  destruct (mem !! (address + (offset + 1))%nat) as [b1|] eqn:H1.
  - destruct (mem !! (address + offset)%nat) as [b0|] eqn:H0; [|done].
    rewrite !bind_Done. f_equal.
    pose proof (u8_range b0). rewrite lor_shiftl_add by pow_lia. pow_lia.
  - apply lookup_ge_None in H1.
    by destruct (mem !! (address + offset)%nat).
Qed.

(** The dword at an offset is the little-endian value of the four bytes
    there, below 2^32; the read fails exactly when one of the four bytes
    lies outside the buffer. *)
Theorem dmiToDWord_value (mem : list byte) (address offset : nat) :
  dmiToDWord mem address offset
  = match mem !! (address + offset)%nat,
          mem !! (address + (offset + 1))%nat,
          mem !! (address + (offset + 2))%nat,
          mem !! (address + (offset + 3))%nat with
    | Some b0, Some b1, Some b2, Some b3 =>
        Done (u8 b0 + 256 * u8 b1 + 65536 * u8 b2 + 16777216 * u8 b3)
    | _, _, _, _ => Fault OutOfBounds
    end ∧
  ∀ d, dmiToDWord mem address offset = Done d → 0 ≤ d < 4294967296.
Proof.
  assert (∀ o, is_Some (mem !! (address + (offset + 3))%nat) →
               (o ≤ 3)%nat →
               is_Some (mem !! (address + (offset + o))%nat)) as Hbelow.
  { intros o Hsome%lookup_lt_is_Some Ho. apply lookup_lt_is_Some. lia. }
  destruct (mem !! (address + (offset + 3))%nat) as [b3|] eqn:H3.
  - destruct (Hbelow 0%nat) as [b0 H0]; [done | lia |].
    destruct (Hbelow 1%nat) as [b1 H1]; [done | lia |].
    destruct (Hbelow 2%nat) as [b2 H2]; [done | lia |].
    rewrite Nat.add_0_r in H0. rewrite H0, H1, H2.
    assert (dmiToDWord mem address offset
            = Done (u8 b0 + 256 * u8 b1 + 65536 * u8 b2 + 16777216 * u8 b3))
      as ->.
    { rewrite (dmiToDWord_little_endian mem address offset
                 (u8 b0) (u8 b1) (u8 b2) (u8 b3));
        [f_equal; pow_lia | unfold peek..].
      - by rewrite H0.
      - by rewrite H1.
      - by rewrite H2.
      - by rewrite H3. }
    split; [done|]. intros d [= <-].
    pose proof (u8_range b0). pose proof (u8_range b1).
    pose proof (u8_range b2). pose proof (u8_range b3). lia.
  - assert (dmiToDWord mem address offset = Fault OutOfBounds) as ->.
    { unfold dmiToDWord, peek. by rewrite H3. }
    split; [|done].
    by destruct (mem !! (address + offset)%nat),
                (mem !! (address + (offset + 1))%nat),
                (mem !! (address + (offset + 2))%nat).
Qed.



Lemma hex_digit_is_hex (d : Z) : is_hex_digit (hex_digit d) = true.
Proof.
  unfold hex_digit.
  destruct (Z.to_nat d) as [|[|[|[|[|[|[|[|[|[|[|[|[|[|[|[|n]]]]]]]]]]]]]]]];
    reflexivity.
Qed.

Lemma hex_digit_value_digit (d : Z) :
  0 ≤ d < 16 → hex_digit_value (hex_digit d) = d.
Proof.
  intros Hd.
  assert (d = 0 ∨ d = 1 ∨ d = 2 ∨ d = 3 ∨ d = 4 ∨ d = 5 ∨ d = 6 ∨ d = 7 ∨
          d = 8 ∨ d = 9 ∨ d = 10 ∨ d = 11 ∨ d = 12 ∨ d = 13 ∨ d = 14 ∨
          d = 15) as Hcases by lia.
  destruct_or!; subst d; reflexivity.
Qed.

(** With enough fuel the digits put in front of [acc] denote [num]. *)
Lemma hex_digits_value (fuel : nat) (num : Z) (acc : string) :
  0 ≤ num < 16 ^ Z.of_nat fuel →
  hex_value_from 0 (hex_digits fuel num acc) = hex_value_from num acc.
Proof.
  revert num acc. induction fuel as [|fuel IH]; intros num acc Hnum.
  - cbn in *. by replace num with 0 by lia.
  - cbn [hex_digits].
    pose proof (Z.mod_pos_bound num 16 ltac:(lia)) as Hmod.
    pose proof (Z.div_mod num 16 ltac:(lia)) as Hdiv.
    assert (0 ≤ num / 16 < 16 ^ Z.of_nat fuel) as Hquot.
    { split; [apply Z.div_pos; lia|].
      apply Z.div_lt_upper_bound; [lia|].
      rewrite Nat2Z.inj_succ, Z.pow_succ_r in Hnum by lia. lia. }
    destruct (Z.eqb_spec (num / 16) 0) as [Hz|Hnz].
    + cbn [hex_value_from]. rewrite hex_digit_value_digit by lia.
      f_equal. lia.
    + rewrite IH by done. cbn [hex_value_from].
      rewrite hex_digit_value_digit by lia. f_equal. lia.
Qed.

Lemma hex_digits_all_hex (fuel : nat) (num : Z) (acc : string) :
  all_hex acc = true → all_hex (hex_digits fuel num acc) = true.
Proof.
  revert num acc. induction fuel as [|fuel IH]; intros num acc Hacc; [done|].
  cbn [hex_digits].
  assert (all_hex (String (hex_digit (num `mod` 16)) acc) = true) as Hnext.
  { cbn [all_hex]. by rewrite hex_digit_is_hex, Hacc. }
  destruct (num / 16 =? 0); [done | by apply IH].
Qed.

(** A number below [16 ^ k] takes at most [k] digits, and at least one. *)
Lemma hex_digits_length (fuel k : nat) (num : Z) (acc : string) :
  0 ≤ num < 16 ^ Z.of_nat k →
  (1 ≤ k)%nat →
  (1 ≤ fuel)%nat →
  (String.length acc < String.length (hex_digits fuel num acc)
   ≤ String.length acc + k)%nat.
Proof.
  revert k num acc.
  induction fuel as [|fuel IH]; intros k num acc Hnum Hk Hfuel; [lia|].
  cbn [hex_digits].
  destruct (Z.eqb_spec (num / 16) 0) as [Hz|Hnz]; [cbn; lia|].
  destruct k as [|[|k]]; [lia | |].
  - change (16 ^ Z.of_nat 1) with 16 in Hnum.
    rewrite Z.div_small in Hnz by done. done.
  - destruct fuel as [|fuel]; [cbn; lia|].
    assert (0 ≤ num / 16 < 16 ^ Z.of_nat (S k)) as Hquot.
    { split; [apply Z.div_pos; lia|].
      apply Z.div_lt_upper_bound; [lia|].
      rewrite (Nat2Z.inj_succ (S k)), Z.pow_succ_r in Hnum by lia. lia. }
    specialize (IH (S k) (num / 16)
                  (String (hex_digit (num `mod` 16)) acc) Hquot).
    cbn [String.length] in IH. lia.
Qed.

Lemma setfill0_value (n : nat) (s : string) :
  hex_value_from 0 (setfill0 n s) = hex_value_from 0 s.
Proof. induction n as [|n IH]; [done|]. cbn. exact IH. Qed.

Lemma setfill0_all_hex (n : nat) (s : string) :
  all_hex s = true → all_hex (setfill0 n s) = true.
Proof. intros Hs. induction n as [|n IH]; [done|]. cbn. exact IH. Qed.

Lemma setfill0_length (n : nat) (s : string) :
  String.length (setfill0 n s) = (n + String.length s)%nat.
Proof. induction n as [|n IH]; [done|]. cbn. by rewrite IH. Qed.

Lemma log2_fuel (num : Z) :
  0 ≤ num → num < 16 ^ Z.of_nat (S (Z.to_nat (Z.log2 num))).
Proof.
  intros Hnum. pose proof (Z.log2_nonneg num) as Hlog.
  rewrite Nat2Z.inj_succ, Z2Nat.id by done.
  destruct (Z.eq_dec num 0) as [->|Hnz]; [done|].
  destruct (Z.log2_spec num) as [_ Hlt]; [lia|].
  eapply Z.lt_le_trans; [exact Hlt|].
  apply Z.pow_le_mono_l. lia.
Qed.

Lemma toHexStr_digits_aux (num : Z) (width : nat) :
  0 ≤ num →
  ∃ digits,
    toHexStr num width = ("0x" +:+ digits)%string ∧
    all_hex digits = true ∧
    hex_value digits = num ∧
    (width ≤ String.length digits)%nat ∧
    ((1 ≤ width)%nat → num < 16 ^ Z.of_nat width →
     String.length digits = width).
Proof.
  intros Hnum. unfold toHexStr.
  set (ss := hex_digits (S (Z.to_nat (Z.log2 num))) num "").
  exists (setfill0 (width - String.length ss) ss).
  split; [done|]. split; [by apply setfill0_all_hex, hex_digits_all_hex|].
  split; [|split].
  - unfold hex_value. rewrite setfill0_value. unfold ss.
    by rewrite hex_digits_value by (split; [done | by apply log2_fuel]).
  - rewrite setfill0_length. lia.
  - intros Hwidth Hfits. rewrite setfill0_length.
    assert (String.length ss ≤ width)%nat; [|lia].
    apply (hex_digits_length (S (Z.to_nat (Z.log2 num))) width num "");
      [done | done | lia].
Qed.

(** The text of a non-negative number is [0x] followed by lowercase
    hexadecimal digits that denote the number, at least [width] of them,
    and exactly [width] when the number fits in that many digits. *)
Theorem toHexStr_digits (num : Z) (width : nat) :
  0 ≤ num →
  ∃ digits,
    toHexStr num width = ("0x" +:+ digits)%string ∧
    all_hex digits = true ∧
    hex_value digits = num ∧
    (width ≤ String.length digits)%nat ∧
    ((1 ≤ width)%nat → num < 16 ^ Z.of_nat width →
     String.length digits = width).
Proof. exact (toHexStr_digits_aux num width). Qed.

Lemma toHexStr_digits_witness :
  ∃ digits,
    toHexStr 0x1001 4 = ("0x" +:+ digits)%string ∧
    all_hex digits = true ∧
    hex_value digits = 0x1001 ∧
    (4 ≤ String.length digits)%nat ∧
    ((1 ≤ 4)%nat → 0x1001 < 16 ^ Z.of_nat 4 → String.length digits = 4%nat).
Proof. apply (toHexStr_digits 0x1001 4). lia. Defined.

(** The hexadecimal text of a word that was read has six characters, and
    its four digits denote the word: different words give different
    texts. *)
Theorem dmiWordToHexStr_round_trip (mem : list byte) (address offset : nat)
    (text : string) :
  dmiWordToHexStr mem address offset = Done text →
  ∃ digits,
    text = ("0x" +:+ digits)%string ∧
    String.length digits = 4%nat ∧
    all_hex digits = true ∧
    dmiToWord mem address offset = Done (hex_value digits).
Proof.
  unfold dmiWordToHexStr. intros Htext.
  apply bind_Done_inv in Htext as (word & Hword & Htext).
  apply Done_inj in Htext as <-.
  destruct (dmiToWord_Done_inv _ _ _ _ Hword) as [_ Hrange].
  destruct (toHexStr_digits_aux word 4) as (digits & -> & Hhex & Hval & _ & Hlen);
    [lia|].
  exists digits. rewrite Hval. repeat split; try done.
  apply Hlen; [lia|]. change (16 ^ Z.of_nat 4) with 65536. lia.
Qed.

Lemma dmiWordToHexStr_round_trip_witness :
  ∃ digits,
    "0x1001"%string = ("0x" +:+ digits)%string ∧
    String.length digits = 4%nat ∧
    all_hex digits = true ∧
    dmiToWord extended_mem 0 0x02 = Done (hex_value digits).
Proof.
  apply (dmiWordToHexStr_round_trip extended_mem 0 0x02 "0x1001").
  reflexivity.
Defined.

(** * Further properties of the structure walker *)

(** The walker emits nothing exactly when there is no buffer, when the
    buffer is shorter than a header, when the formatted area of the first
    structure overruns the buffer, or when the first header has length 0
    and handle 0. *)
Theorem tables_nothing (p : SMBIOSParser) :
  tables p = Done [] ↔
  match table_data_ p with
  | None => True
  | Some mem =>
      (length mem < sizeof_SMBStructHeader)%nat ∨
      ∃ header,
        header_at mem 0 = Done header ∧
        ((length mem < Z.to_nat (hdr_length header))%nat ∨
         (hdr_length header = 0 ∧ hdr_handle header = 0))
  end.
Proof.
  unfold tables, table_size_. destruct (table_data_ p) as [mem|]; [|done].
  cbn [walk].
  destruct (Nat.leb_spec (0 + sizeof_SMBStructHeader) (length mem))
    as [Hfit|Hshort]; [|split; [intros _; left; cbn in *; lia | done]].
  destruct (header_at_inside mem 0 Hfit) as (header & Hhdr & _).
  rewrite Hhdr, bind_Done. cbn [Nat.add].
  destruct (Nat.ltb_spec (length mem) (Z.to_nat (hdr_length header)))
    as [Hover|Hin].
  { split; [|done]. intros _. right. exists header. split; [done|]. by left. }
  destruct (Z.eqb_spec (hdr_length header) 0) as [Hlen|Hlen];
    [destruct (Z.eqb_spec (hdr_handle header) 0) as [Hhandle|Hhandle]|];
    cbn [andb].
  - split; [|done]. intros _. right. exists header. split; [done|]. by right.
  - split.
    + destruct (scan _ _ _ _); [|done]. rewrite bind_Done.
      by destruct (walk _ _ _ _ _).
    + intros [Hshort|(header' & Hhdr' & [Hover|[_ Hz]])].
      * cbn in *. lia.
      * apply Done_inj in Hhdr' as <-. lia.
      * by apply Done_inj in Hhdr' as <-.
  - split.
    + destruct (scan _ _ _ _); [|done]. rewrite bind_Done.
      by destruct (walk _ _ _ _ _).
    + intros [Hshort|(header' & Hhdr' & [Hover|[Hz _]])].
      * cbn in *. lia.
      * apply Done_inj in Hhdr' as <-. lia.
      * by apply Done_inj in Hhdr' as <-.
Qed.

Lemma chain_tiles (mem : list byte) (table index : nat) (l : list tuple) :
  chain mem table index l →
  (table ≤ length mem)%nat →
  (∀ t, l !! 0%nat = Some t → t_address t = table) ∧
  (∀ i t t', l !! i = Some t → l !! S i = Some t' →
             t_address t' = (t_address t + t_size t)%nat) ∧
  concat (map (span_bytes mem) l)
  = take (sum_list (map t_size l)) (drop table mem) ∧
  (table + sum_list (map t_size l) ≤ length mem)%nat.
Proof.
  induction 1 as [|table index header len rest Hhdr Hpad Hlen Hpos Hend Hrest
                    IH]; intros Hle.
  - split; [done|]. split; [done|]. split; [|cbn; lia].
    cbn. by rewrite take_0.
  - destruct (IH Hend) as (IHfirst & IHnext & IHbytes & IHsum).
    split; [|split; [|split]].
    + by intros t [= <-].
    + intros [|i] t t'; cbn.
      * intros [= <-] Ht'. cbn. by apply IHfirst.
      * apply IHnext.
    + cbn. rewrite IHbytes.
      unfold span_bytes. cbn [t_size t_address].
      by rewrite <- (drop_drop mem len table), <- take_take_drop.
    + cbn. cbn in IHsum. lia.
Qed.

Lemma chain_sizes (mem : list byte) (table index : nat) (l : list tuple) :
  chain mem table index l →
  Forall (λ t, header_at mem (t_address t) = Done (t_hdr t) ∧
               (0 < t_size t)%nat ∧
               (Z.to_nat (hdr_length (t_hdr t)) ≤ t_size t)%nat) l.
Proof. induction 1; constructor; [|done]. cbn. by repeat split. Qed.

(** The spans the walker emits tile the front of the buffer: the first
    starts at the first byte, each next one starts where the previous one
    ends, so that the bytes of the spans, put end to end, are the first
    bytes of the buffer.  Every span is non-empty, holds the formatted area
    its header declares, and its header is the one stored at its start. *)
Theorem tables_tiling (mem : list byte) :
  ∃ l,
    tables {| table_data_ := Some mem |} = Done l ∧
    (∀ t, l !! 0%nat = Some t → t_address t = 0%nat) ∧
    (∀ i t t', l !! i = Some t → l !! S i = Some t' →
               t_address t' = (t_address t + t_size t)%nat) ∧
    concat (map (span_bytes mem) l) = take (sum_list (map t_size l)) mem ∧
    (sum_list (map t_size l) ≤ length mem)%nat ∧
    Forall (λ t, header_at mem (t_address t) = Done (t_hdr t) ∧
                 (0 < t_size t)%nat ∧
                 (Z.to_nat (hdr_length (t_hdr t)) ≤ t_size t)%nat) l.
Proof.
  destruct (tables_chain {| table_data_ := Some mem |}) as (l & Hl & Hchain).
  cbn in Hchain. exists l. split; [done|].
  destruct (chain_tiles _ _ _ _ Hchain) as (Hfirst & Hnext & Hbytes & Hsum);
    [lia|].
  rewrite drop_0 in Hbytes.
  split; [done|]. split; [done|]. split; [done|]. split; [lia|].
  by eapply chain_sizes.
Qed.

Lemma lookup_body_nul (body tail : list byte) (i : nat) :
  (i ≤ length body)%nat →
  (body ++ x00 :: tail) !! i = (body ++ [x00]) !! i.
Proof.
  intros Hi. destruct (decide (i < length body)%nat) as [Hlt|Hge].
  - by rewrite !lookup_app_l.
  - rewrite !lookup_app_r by lia.
    by replace (i - length body)%nat with 0%nat by lia.
Qed.

Lemma drop_is_suffix (mem suffix : list byte) (n : nat) :
  drop n mem = suffix →
  suffix ≠ [] →
  length mem = (n + length suffix)%nat ∧
  ∀ i, mem !! (n + i)%nat = suffix !! i.
Proof.
  intros <- Hne. split; [|intros i; by rewrite lookup_drop].
  rewrite length_drop.
  destruct (decide (n ≤ length mem)%nat); [lia|].
  by rewrite drop_ge in Hne by lia.
Qed.

(** The scan goes on as long as it meets no double NUL with a header's
    length of bytes left. *)
Lemma scan_not_found (mem : list byte) (fuel next_table : nat) :
  (next_table ≤ length mem)%nat →
  (length mem - next_table < fuel)%nat →
  (∀ j, (next_table ≤ j)%nat → (j + 4 ≤ length mem)%nat →
        ¬ (mem !! j = Some x00 ∧ mem !! S j = Some x00)) →
  scan fuel mem (length mem) next_table
  = Done (Nat.max next_table (length mem - 3)).
Proof.
  revert next_table.
  induction fuel as [|fuel IH]; intros next_table Hle Hfuel Hnul; [lia|].
  cbn [scan]. unfold sizeof_SMBStructHeader.
  destruct (Nat.leb_spec (next_table + 4) (length mem)) as [Hfit|Hnofit];
    [|f_equal; lia].
  assert (scan fuel mem (length mem) (S next_table)
          = Done (Nat.max next_table (length mem - 3))) as Hnext.
  { rewrite IH; [f_equal; lia | lia | lia |].
    intros j Hj. apply Hnul. lia. }
  destruct (peek_inside mem next_table 0) as (b0 & Hb0 & ->); [lia|].
  rewrite bind_Done.
  destruct (Z.eqb_spec (u8 b0) 0) as [Hz0|]; [|done].
  destruct (peek_inside mem next_table 1) as (b1 & Hb1 & ->); [lia|].
  rewrite bind_Done.
  destruct (Z.eqb_spec (u8 b1) 0) as [Hz1|]; [|done].
  apply u8_zero in Hz0, Hz1. subst b0 b1.
  rewrite Nat.add_0_r in Hb0. rewrite Nat.add_1_r in Hb1.
  destruct (Hnul next_table); [lia | lia | done].
Qed.

Lemma peek_suffix (mem suffix : list byte) (n i : nat) (b : byte) :
  (∀ i, mem !! (n + i)%nat = suffix !! i) →
  suffix !! i = Some b →
  peek mem n i = Done (u8 b).
Proof. intros Hlookup Hb. unfold peek. by rewrite Hlookup, Hb. Qed.

(** The scan stops two bytes behind the first double NUL, provided two
    more bytes follow it. *)
Lemma scan_found (mem body rest : list byte) (fuel next_table : nat) :
  drop next_table mem = body ++ x00 :: x00 :: rest →
  (2 ≤ length rest)%nat →
  no_nul_pair (body ++ [x00]) →
  (length body < fuel)%nat →
  scan fuel mem (length mem) next_table
  = Done (next_table + length body + 2)%nat.
Proof.
  revert fuel next_table.
  induction body as [|b body IH]; intros fuel next_table Hdrop Hrest Hpair Hfuel;
    (destruct fuel as [|fuel]; [cbn in Hfuel; lia|]);
    destruct (drop_is_suffix _ _ _ Hdrop) as [Hlen Hlookup];
    try done; rewrite ?length_app in Hlen; cbn [length] in Hlen;
    cbn [scan]; unfold sizeof_SMBStructHeader;
    (destruct (Nat.leb_spec (next_table + 4) (length mem)); [|lia]).
  - rewrite (peek_suffix _ _ _ 0 x00 Hlookup eq_refl), bind_Done.
    rewrite (peek_suffix _ _ _ 1 x00 Hlookup eq_refl), bind_Done.
    cbn. f_equal. lia.
  - assert (scan fuel mem (length mem) (S next_table)
            = Done (next_table + length (b :: body) + 2)%nat) as Hnext.
    { rewrite (IH fuel (S next_table)); [f_equal; cbn; lia | | done | |].
      - replace (S next_table) with (next_table + 1)%nat by lia.
        by rewrite <- drop_drop, Hdrop.
      - intros i. apply (Hpair (S i)).
      - cbn in Hfuel. lia. }
    rewrite (peek_suffix _ _ _ 0 b Hlookup eq_refl), bind_Done.
    destruct (Z.eqb_spec (u8 b) 0) as [Hz|]; [|done].
    apply u8_zero in Hz. subst b.
    destruct ((body ++ [x00]) !! 0%nat) as [c|] eqn:Hc.
    + rewrite (peek_suffix _ _ _ 1 c Hlookup), bind_Done.
      2:{ change ((body ++ x00 :: x00 :: rest) !! 0%nat = Some c).
          by rewrite (lookup_body_nul body (x00 :: rest) 0) by lia. }
      destruct (Z.eqb_spec (u8 c) 0) as [Hzc|]; [|done].
      apply u8_zero in Hzc. subst c.
      destruct (Hpair 0%nat). by split.
    + apply lookup_ge_None in Hc. rewrite length_app in Hc. cbn in Hc. lia.
Qed.

(** When the walker reaches a structure whose trailing data ends in a
    double NUL (with no double NUL before it) and at least two more bytes
    follow in the buffer, it emits the structure with a span that holds the
    formatted area, the trailing data and the double NUL, and goes on right
    behind it. *)
Theorem tables_terminated (mem body rest : list byte) (table index : nat)
    (header : SMBStructHeader) :
  reached mem table index →
  header_at mem table = Done header →
  ¬ (hdr_length header = 0 ∧ hdr_handle header = 0) →
  drop (table + Z.to_nat (hdr_length header)) mem
  = body ++ x00 :: x00 :: rest →
  (2 ≤ length rest)%nat →
  no_nul_pair (body ++ [x00]) →
  reached mem (table + Z.to_nat (hdr_length header) + length body + 2)
    (S index) ∧
  ∃ prefix suffix,
    length prefix = index ∧
    tables {| table_data_ := Some mem |}
    = Done (prefix ++
            {| t_index := index; t_hdr := header; t_address := table;
               t_size := Z.to_nat (hdr_length header) + length body + 2 |}
            :: suffix).
Proof.
  intros Hreached Hhdr Hpad Hdrop Hrest Hpair.
  destruct (drop_is_suffix _ _ _ Hdrop) as [Hlen _]; [by destruct body|].
  rewrite length_app in Hlen. cbn [length] in Hlen.
  assert (scan (S (length mem)) mem (length mem)
            (table + Z.to_nat (hdr_length header))
          = Done (table + Z.to_nat (hdr_length header) + length body + 2)%nat)
    as Hscan by (apply (scan_found mem body rest); [done | done | done | lia]).
  split; [by eapply reached_next; [done | done | lia | done | done]|].
  destruct (tables_reached _ _ _ Hreached)
    as (prefix & l & fuel & _ & Hfuel & Hwalk & Htables & Hprefix & _).
  destruct fuel as [|fuel]; [lia|].
  rewrite (walk_emit _ _ _ _ _ _ Hhdr ltac:(lia) Hpad Hscan) in Hwalk.
  apply bind_Done_inv in Hwalk as (suffix & _ & Hl).
  apply Done_inj in Hl as <-.
  exists prefix, suffix. split; [done|]. rewrite Htables.
  by replace (table + Z.to_nat (hdr_length header) + length body + 2 - table)%nat
    with (Z.to_nat (hdr_length header) + length body + 2)%nat by lia.
Qed.

(** A double NUL in the last three bytes of the buffer is not recognised:
    when the trailing data of the structure the walker has reached ends in
    a double NUL that fewer than two bytes follow, the structure is the last
    one emitted and its span stops three bytes before the buffer end, or
    holds just the formatted area; the double NUL is not part of it. *)
Theorem tables_final_structure (mem body rest : list byte)
    (table index : nat) (header : SMBStructHeader) :
  reached mem table index →
  header_at mem table = Done header →
  ¬ (hdr_length header = 0 ∧ hdr_handle header = 0) →
  drop (table + Z.to_nat (hdr_length header)) mem
  = body ++ x00 :: x00 :: rest →
  (length rest < 2)%nat →
  no_nul_pair (body ++ [x00]) →
  ∃ prefix,
    length prefix = index ∧
    tables {| table_data_ := Some mem |}
    = Done (prefix ++
            [ {| t_index := index; t_hdr := header; t_address := table;
                 t_size := Nat.max (Z.to_nat (hdr_length header))
                             (Z.to_nat (hdr_length header) + length body
                                + length rest - 1) |} ]).
Proof.
  intros Hreached Hhdr Hpad Hdrop Hrest Hpair.
  destruct (drop_is_suffix _ _ _ Hdrop) as [Hlen Hlookup]; [by destruct body|].
  rewrite length_app in Hlen. cbn [length] in Hlen.
  destruct (header_at_Done_inv _ _ _ Hhdr) as [Hfour _].
  unfold sizeof_SMBStructHeader in Hfour.
  assert (scan (S (length mem)) mem (length mem)
            (table + Z.to_nat (hdr_length header))
          = Done (Nat.max (table + Z.to_nat (hdr_length header))
                          (length mem - 3))) as Hscan.
  { apply scan_not_found; [lia | lia |].
    intros j Hj Hroom [H0 H1].
    replace j with (table + Z.to_nat (hdr_length header)
                    + (j - (table + Z.to_nat (hdr_length header))))%nat
      in H0 by lia.
    replace (S j) with (table + Z.to_nat (hdr_length header)
                        + S (j - (table + Z.to_nat (hdr_length header))))%nat
      in H1 by lia.
    rewrite Hlookup, lookup_body_nul in H0, H1 by lia.
    by apply (Hpair (j - (table + Z.to_nat (hdr_length header)))%nat). }
  destruct (tables_reached _ _ _ Hreached)
    as (prefix & l & fuel & _ & Hfuel & Hwalk & Htables & Hprefix & _).
  destruct fuel as [|[|fuel]]; [lia..|].
  rewrite (walk_emit _ _ _ _ _ _ Hhdr ltac:(lia) Hpad Hscan) in Hwalk.
  cbn [walk] in Hwalk. unfold sizeof_SMBStructHeader in Hwalk.
  destruct (Nat.leb_spec
              (Nat.max (table + Z.to_nat (hdr_length header))
                       (length mem - 3) + 4) (length mem)); [lia|].
  rewrite bind_Done in Hwalk. apply Done_inj in Hwalk as <-.
  exists prefix. split; [done|]. rewrite Htables.
  by replace (Nat.max (table + Z.to_nat (hdr_length header))
                (length mem - 3) - table)%nat
    with (Nat.max (Z.to_nat (hdr_length header))
            (Z.to_nat (hdr_length header) + length body + length rest - 1))
    by lia.
Qed.

Lemma extended_body_no_nul_pair : no_nul_pair (extended_body ++ [x00]).
Proof. intros i [H1 H2]. scan_bytes i H1 H2. Qed.

Lemma tables_terminated_witness :
  reached extended_mem 59 1 ∧
  ∃ prefix suffix,
    length prefix = 0%nat ∧
    tables {| table_data_ := Some extended_mem |}
    = Done (prefix ++
            {| t_index := 0; t_hdr := extended_hdr; t_address := 0;
               t_size := 59 |} :: suffix).
Proof.
  apply (tables_terminated extended_mem extended_body
           [x7f; x04; x02; x00; x00; x00] 0 0 extended_hdr).
  - constructor.
  - reflexivity.
  - cbn. lia.
  - reflexivity.
  - cbn. lia.
  - exact extended_body_no_nul_pair.
Defined.

Lemma extended_reached : reached extended_mem 59 1.
Proof.
  apply (reached_next extended_mem 0 0 extended_hdr 59).
  - constructor.
  - reflexivity.
  - cbn. lia.
  - cbn. lia.
  - vm_compute. reflexivity.
Qed.

Lemma tables_final_structure_witness :
  ∃ prefix,
    length prefix = 1%nat ∧
    tables {| table_data_ := Some extended_mem |}
    = Done (prefix ++
            [ {| t_index := 1;
                 t_hdr := {| hdr_type := 127; hdr_length := 4;
                             hdr_handle := 2 |};
                 t_address := 59; t_size := 4 |} ]).
Proof.
  apply (tables_final_structure extended_mem [] [] 59 1
           {| hdr_type := 127; hdr_length := 4; hdr_handle := 2 |}).
  - exact extended_reached.
  - reflexivity.
  - cbn. lia.
  - reflexivity.
  - cbn. lia.
  - intros i [H1 H2]. scan_bytes i H1 H2.
Defined.

(** * Further properties of the string-table resolver *)

Lemma eqb_x00 (b : byte) : Byte.eqb b x00 = (u8 b =? 0).
Proof. destruct b; reflexivity. Qed.

Lemma skip_string_count (bp : list byte) :
  match count_nul bp with
  | O => skip_string bp = Fault OutOfBounds
  | S n => ∃ bp', skip_string bp = Done bp' ∧ count_nul bp' = n
  end.
Proof.
  induction bp as [|b bp IH]; [done|].
  cbn [count_nul skip_string]. rewrite eqb_x00.
  destruct (u8 b =? 0); [by exists bp|].
  cbn [Nat.add]. exact IH.
Qed.

Lemma c_str_count (bp : list byte) :
  match count_nul bp with
  | O => c_str bp = Fault OutOfBounds
  | S n => ∃ str, c_str bp = Done str ∧ Forall (λ b, b ≠ x00) str
  end.
Proof.
  induction bp as [|b bp IH]; [done|].
  cbn [count_nul c_str]. rewrite eqb_x00.
  destruct (Z.eqb_spec (u8 b) 0) as [Hz|Hnz]; [by exists []|].
  cbn [Nat.add]. destruct (count_nul bp).
  - by rewrite IH.
  - destruct IH as (str & -> & Hstr). exists (b :: str).
    split; [done|]. constructor; [|done]. by intros ->.
Qed.

Lemma skip_strings_count (k : nat) (bp : list byte) :
  if decide (k ≤ count_nul bp)%nat
  then ∃ bp', skip_strings (S k) bp = Done bp' ∧
              count_nul bp' = (count_nul bp - k)%nat
  else skip_strings (S k) bp = Fault OutOfBounds.
Proof.
  revert bp. induction k as [|k IH]; intros bp.
  - destruct (decide _); [|lia]. exists bp. split; [done | lia].
  - change (skip_strings (S (S k)) bp)
      with (skip_string bp ≫= skip_strings (S k)).
    pose proof (skip_string_count bp) as Hskip.
    destruct (count_nul bp) as [|n].
    + rewrite Hskip. by destruct (decide _); [lia|].
    + destruct Hskip as (bp' & -> & Hcount). rewrite bind_Done.
      specialize (IH bp'). rewrite Hcount in IH.
      destruct (decide (k ≤ n)%nat), (decide (S k ≤ S n)%nat); try lia; done.
Qed.

Lemma dmiString_outcome (mem : list byte) (data address offset index : nat) :
  peek mem address offset = Done (Z.of_nat index) →
  if decide (index = 0%nat ∨ (index ≤ count_nul (drop data mem))%nat)
  then ∃ text, dmiString mem data address offset = Done text
  else dmiString mem data address offset = Fault OutOfBounds.
Proof.
  intros Hindex. unfold dmiString. rewrite Hindex, bind_Done.
  destruct index as [|k].
  { destruct (decide _) as [|Hno]; [by eexists | destruct Hno; by left]. }
  destruct (Z.eqb_spec (Z.of_nat (S k)) 0); [lia|]. rewrite Nat2Z.id.
  pose proof (skip_strings_count k (drop data mem)) as Hskip.
  destruct (decide (k ≤ count_nul (drop data mem))%nat) as [Hk|Hk].
  - destruct Hskip as (bp & -> & Hcount). rewrite bind_Done.
    pose proof (c_str_count bp) as Hstr. rewrite Hcount in Hstr.
    destruct (decide _) as [[?|Hle]|Hno].
    + done.
    + destruct (count_nul (drop data mem) - k)%nat eqn:Hleft; [lia|].
      destruct Hstr as (str & -> & _). by eexists.
    + destruct (count_nul (drop data mem) - k)%nat eqn:Hleft;
        [by rewrite Hstr | destruct Hno; right; lia].
  - rewrite Hskip. destruct (decide _) as [[?|Hle]|Hno]; [done | lia | done].
Qed.

(** Resolving a string succeeds exactly when its index is 0 or the memory
    from the data pointer on holds at least that many NUL bytes; otherwise
    the resolver runs off the end of the memory. *)
Theorem dmiString_succeeds (mem : list byte) (data address offset index : nat) :
  peek mem address offset = Done (Z.of_nat index) →
  if decide (index = 0%nat ∨ (index ≤ count_nul (drop data mem))%nat)
  then ∃ text, dmiString mem data address offset = Done text
  else dmiString mem data address offset = Fault OutOfBounds.
Proof. exact (dmiString_outcome mem data address offset index). Qed.

Lemma dmiString_succeeds_witness :
  if decide (4%nat = 0%nat ∨ (4 ≤ count_nul (drop 40 overrun_mem))%nat)
  then ∃ text, dmiString overrun_mem 40 0 0x10 = Done text
  else dmiString overrun_mem 40 0 0x10 = Fault OutOfBounds.
Proof. apply (dmiString_succeeds overrun_mem 40 0 0x10 4). reflexivity. Defined.

Lemma nul_free_bytes (str : list byte) :
  Forall (λ b, b ≠ x00) str → nul_free (string_of_list_byte str) = true.
Proof.
  induction 1 as [|b str Hb _ IH]; [done|].
  change (string_of_list_byte (b :: str))
    with (String (ascii_of_byte b) (string_of_list_byte str)).
  cbn [nul_free]. rewrite IH, andb_true_r.
  destruct b; (reflexivity || by destruct Hb).
Qed.

Lemma nul_free_app (text ws : string) :
  nul_free (text +:+ ws) = true → nul_free text = true.
Proof.
  induction text as [|c text IH]; [done|].
  rewrite app_String. cbn [nul_free].
  intros [Hc Hrest]%andb_true_iff. by rewrite Hc, IH.
Qed.

(** A resolved string holds no NUL character and does not end in
    whitespace. *)
Theorem dmiString_text (mem : list byte) (data address offset : nat)
    (text : string) :
  dmiString mem data address offset = Done text →
  nul_free text = true ∧
  ∀ t c, text = (t +:+ String c "")%string → is_space c = false.
Proof.
  unfold dmiString. intros Htext.
  apply bind_Done_inv in Htext as (index & _ & Htext).
  destruct (index =? 0).
  { apply Done_inj in Htext as <-. split; [done|]. by intros [|??] ?. }
  apply bind_Done_inv in Htext as (bp & _ & Htext).
  apply bind_Done_inv in Htext as (str & Hstr & Htext).
  apply Done_inj in Htext as <-.
  pose proof (c_str_count bp) as Hcount. rewrite Hstr in Hcount.
  destruct (count_nul bp); [done|].
  destruct Hcount as (str' & [= <-] & Hfree).
  destruct (trim_right_stripped (string_of_list_byte str))
    as (ws & Hraw & _ & Hlast).
  split; [|done].
  apply (nul_free_app _ ws). rewrite <- Hraw. by apply nul_free_bytes.
Qed.

Lemma dmiString_text_witness :
  nul_free "DIMM A1" = true ∧
  ∀ t c, "DIMM A1"%string = (t +:+ String c "")%string → is_space c = false.
Proof.
  apply (dmiString_text extended_mem 40 0 0x10 "DIMM A1"). reflexivity.
Defined.

Lemma dmiString_kth (mem : list byte) (data address offset k : nat)
    (strs : list (list byte)) (s rest : list byte) :
  peek mem address offset = Done (Z.of_nat (S k)) →
  drop data mem = nul_terminated strs ++ rest →
  Forall (Forall (λ b, b ≠ x00)) strs →
  strs !! k = Some s →
  dmiString mem data address offset
  = Done (trim_right (string_of_list_byte s)).
Proof.
  intros Hindex Harea Hstrs Hs. unfold dmiString.
  rewrite Hindex, bind_Done.
  destruct (Z.eqb_spec (Z.of_nat (S k)) 0); [lia|].
  rewrite Nat2Z.id, Harea.
  rewrite skip_strings_terminated;
    [|done | apply Nat.lt_le_incl; by eapply lookup_lt_Some].
  rewrite bind_Done, (drop_S _ _ _ Hs). cbn [nul_terminated].
  rewrite <- app_assoc, <- app_comm_cons.
  rewrite c_str_terminated, bind_Done; [done|].
  by eapply Forall_lookup_1 in Hstrs.
Qed.

Lemma nul_terminated_app (strs strs' : list (list byte)) :
  nul_terminated (strs ++ strs')
  = nul_terminated strs ++ nul_terminated strs'.
Proof.
  induction strs as [|s strs IH]; [done|].
  cbn. by rewrite IH, <- app_assoc.
Qed.

(** The index right after the last string names the NUL that closes the
    trailing area and resolves to the empty string. *)
Theorem dmiString_closing_nul (mem : list byte) (data address offset : nat)
    (strs : list (list byte)) (rest : list byte) :
  peek mem address offset = Done (Z.of_nat (S (length strs))) →
  drop data mem = nul_terminated strs ++ x00 :: rest →
  Forall (Forall (λ b, b ≠ x00)) strs →
  dmiString mem data address offset = Done ""%string.
Proof.
  intros Hindex Harea Hstrs.
  apply (dmiString_kth mem data address offset (length strs)
           (strs ++ [[]]) [] rest Hindex).
  - rewrite nul_terminated_app, <- app_assoc. exact Harea.
  - apply Forall_app. split; [done|]. by repeat constructor.
  - by rewrite lookup_app_r, Nat.sub_diag.
Qed.

Lemma dmiString_closing_nul_witness :
  dmiString (<[0x10%nat := x03]> extended_mem) 40 0 0x10 = Done ""%string.
Proof.
  apply (dmiString_closing_nul (<[0x10%nat := x03]> extended_mem) 40 0 0x10
           [list_byte_of_string "DIMM A1  "; list_byte_of_string "Corsair"]
           [x7f; x04; x02; x00; x00; x00]).
  - reflexivity.
  - reflexivity.
  - repeat constructor; discriminate.
Defined.

(** * Further properties of the bit-field decoder *)

Lemma int_shl_1_small (i : Z) (bitField : Z) :
  0 ≤ i < 31 →
  int_shl_1 i = Done (Z.shiftl 1 i) ∧
  (Z.land (to_size_t (Z.shiftl 1 i)) bitField =? 0)
  = negb (Z.testbit bitField i).
Proof.
  intros Hi. unfold int_shl_1, to_size_t.
  destruct (Z.ltb_spec i 31); [|lia]. split; [done|].
  rewrite Z.mod_small; [by apply land_bit; lia|].
  rewrite Z.shiftl_1_l. split; [lia|]. apply Z.pow_lt_mono_r; lia.
Qed.

(** The loop appends the labels of the set bits as long as it finds them
    in the table. *)
Lemma bitfield_loop_present (bitField : Z) (table : gmap Z string) :
  (size table ≤ 31)%nat →
  (∀ j, 0 ≤ j < Z.of_nat (size table) → Z.testbit bitField j = true →
        is_Some (table !! j)) →
  ∀ (n fuel : nat) (i : Z) (result : string),
    0 ≤ i →
    i + Z.of_nat n = Z.of_nat (size table) →
    (n < fuel)%nat →
    bitfield_loop fuel bitField table i result
    = Done (result +:+
            spaced (omap (λ j, if Z.testbit bitField j then table !! j
                               else None) (seqZ i (Z.of_nat n))))%string.
Proof.
  intros Hsize Hpresent n.
  induction n as [|n IH]; intros fuel i result Hi Hn Hfuel;
    (destruct fuel as [|fuel]; [lia|]); cbn [bitfield_loop].
  - destruct (Z.ltb_spec i (Z.of_nat (size table))); [lia|].
    by rewrite app_empty_r.
  - destruct (Z.ltb_spec i (Z.of_nat (size table))); [|lia].
    destruct (int_shl_1_small i bitField) as [Hshl Hland]; [lia|].
    rewrite Hshl, bind_Done, Hland, seqZ_cons by lia. cbn [omap list_omap].
    replace ((i + 1) `mod` 256) with (Z.succ i) by (rewrite Z.mod_small; lia).
    replace (Z.pred (Z.of_nat (S n))) with (Z.of_nat n) by lia.
    destruct (Z.testbit bitField i) eqn:Hbit; cbn [negb].
    + destruct (Hpresent i) as [label Hlabel]; [lia | done |].
      unfold map_at. rewrite Hlabel, bind_Done.
      rewrite IH by lia. cbn [spaced].
      by rewrite !app_assoc_string.
    + by rewrite IH by lia.
Qed.

(** On a table of at most 31 entries that has an entry for every set bit
    below its size, gaps elsewhere do no harm: the decoder returns the
    labels of those bits, in ascending order, joined by single spaces.
    Bits at or above the size of the table are not looked at. *)
Theorem dmiBitFieldToStr_present (bitField : Z) (table : gmap Z string) :
  (size table ≤ 31)%nat →
  (∀ j, 0 ≤ j < Z.of_nat (size table) → Z.testbit bitField j = true →
        is_Some (table !! j)) →
  dmiBitFieldToStr bitField table
  = Done (join_space
            (omap (λ j, if Z.testbit bitField j then table !! j else None)
               (seqZ 0 (Z.of_nat (size table))))).
Proof.
  intros Hsize Hpresent. unfold dmiBitFieldToStr.
  rewrite (bitfield_loop_present bitField table Hsize Hpresent (size table))
    by lia.
  rewrite bind_Done, app_empty_l, <- pop_back_spaced.
  by destruct (spaced _).
Qed.

Lemma dmiBitFieldToStr_present_witness :
  dmiBitFieldToStr 0x8202 kSMBIOSMemoryFormFactorTable
  = Done "Other DIMM"%string.
Proof.
  apply (dmiBitFieldToStr_present 0x8202 kSMBIOSMemoryFormFactorTable).
  - vm_compute. lia.
  - intros j Hj Hbit.
    assert (Z.of_nat (size kSMBIOSMemoryFormFactorTable) = 15) as Hsize
      by (vm_compute; reflexivity).
    rewrite Hsize in Hj.
    assert (j = 0 ∨ j = 1 ∨ j = 2 ∨ j = 3 ∨ j = 4 ∨ j = 5 ∨ j = 6 ∨ j = 7 ∨
            j = 8 ∨ j = 9 ∨ j = 10 ∨ j = 11 ∨ j = 12 ∨ j = 13 ∨ j = 14)
      as Hcases by lia.
    destruct_or!; subst j; (discriminate Hbit || (vm_compute; eauto)).
Defined.

Lemma bitfield_loop_missing (bitField : Z) (table : gmap Z string) (i : Z) :
  (size table ≤ 31)%nat →
  i < Z.of_nat (size table) →
  Z.testbit bitField i = true →
  table !! i = None →
  ∀ (d fuel : nat) (i0 : Z) (result : string),
    0 ≤ i0 →
    i0 + Z.of_nat d = i →
    (d < fuel)%nat →
    bitfield_loop fuel bitField table i0 result = Fault out_of_range.
Proof.
  intros Hsize Hi Hbit Hnone d.
  induction d as [|d IH]; intros fuel i0 result Hi0 Hd Hfuel;
    (destruct fuel as [|fuel]; [lia|]); cbn [bitfield_loop];
    (destruct (Z.ltb_spec i0 (Z.of_nat (size table))); [|lia]);
    (destruct (int_shl_1_small i0 bitField) as [Hshl Hland]; [lia|]);
    rewrite Hshl, bind_Done, Hland.
  - replace i0 with i by lia. rewrite Hbit. cbn [negb].
    unfold map_at. by rewrite Hnone.
  - replace ((i0 + 1) `mod` 256) with (i0 + 1) by (rewrite Z.mod_small; lia).
    destruct (Z.testbit bitField i0); cbn [negb]; [|apply IH; lia].
    unfold map_at. destruct (table !! i0); [|done].
    rewrite bind_Done. apply IH; lia.
Qed.

(** On a table of at most 31 entries, a set bit below the size of the table
    that has no entry makes the decoder throw: [std::map::at] raises
    [std::out_of_range]. *)
Theorem dmiBitFieldToStr_missing (bitField : Z) (table : gmap Z string)
    (i : Z) :
  (size table ≤ 31)%nat →
  0 ≤ i < Z.of_nat (size table) →
  Z.testbit bitField i = true →
  table !! i = None →
  dmiBitFieldToStr bitField table = Fault out_of_range.
Proof.
  intros Hsize [Hi0 Hi] Hbit Hnone. unfold dmiBitFieldToStr.
  by rewrite (bitfield_loop_missing bitField table i Hsize Hi Hbit Hnone
                (Z.to_nat i) 257 0) by lia.
Qed.

Lemma dmiBitFieldToStr_missing_witness :
  dmiBitFieldToStr 0x0201 kSMBIOSMemoryFormFactorTable = Fault out_of_range.
Proof.
  apply (dmiBitFieldToStr_missing 0x0201 kSMBIOSMemoryFormFactorTable 0).
  - vm_compute. lia.
  - vm_compute. by split.
  - reflexivity.
  - reflexivity.
Defined.

Lemma details_labels_nonempty (i : Z) (label : string) :
  kSMBIOSMemoryDetailsTable !! i = Some label → label ≠ ""%string.
Proof.
  intros Hlabel. unfold kSMBIOSMemoryDetailsTable in Hlabel.
  apply elem_of_list_to_map_2 in Hlabel.
  repeat (apply elem_of_cons in Hlabel as [[= _ ->]|Hlabel]; [done|]).
  by apply elem_of_nil in Hlabel.
Qed.

Lemma details_set_labels_nonempty (word : Z) :
  Forall (λ label, label ≠ ""%string)
    (set_labels word kSMBIOSMemoryDetailsTable).
Proof.
  unfold set_labels. generalize (seqZ 0 256). intros js.
  induction js as [|j js IH]; [constructor|].
  cbn [omap list_omap].
  destruct (Z.testbit word j); [|exact IH].
  destruct (kSMBIOSMemoryDetailsTable !! j) as [label|] eqn:Hlabel;
    [|exact IH].
  constructor; [|exact IH]. by eapply details_labels_nonempty.
Qed.

Lemma join_space_nonempty (labels : list string) :
  labels ≠ [] → Forall (λ label, label ≠ ""%string) labels →
  join_space labels ≠ ""%string.
Proof.
  intros Hne Hall. destruct Hall as [|label labels Hlabel Hall]; [done|].
  destruct label as [|c label]; [done|]. by destruct labels.
Qed.

Lemma decodeBits_unfold (mask : Z) (table : gmap Z string) :
  decodeBits mask table = join_space (set_labels mask table).
Proof. reflexivity. Qed.

Lemma decodeBits_zero (table : gmap Z string) :
  decodeBits 0 table = ""%string.
Proof.
  unfold decodeBits, set_labels. rewrite omap_all_None; [done|].
  apply Forall_forall. intros j _. by rewrite Z.bits_0.
Qed.

(** The text of a 16-bit memory-detail word is empty exactly when the word
    is zero. *)
Theorem memory_type_details_empty (word : Z) :
  0 ≤ word < 65536 →
  dmiBitFieldToStr word kSMBIOSMemoryDetailsTable = Done ""%string ↔ word = 0.
Proof.
  intros Hword.
  rewrite dmiBitFieldToStr_dense
    by (apply details_table_dense || (rewrite details_table_size; lia)).
  split; [|intros ->; by rewrite decodeBits_zero].
  intros Hempty%Done_inj.
  destruct (Z.eq_dec word 0) as [|Hnz]; [done|]. exfalso.
  assert (0 ≤ Z.log2 word < 16) as Hlog.
  { split; [apply Z.log2_nonneg|]. apply Z.log2_lt_pow2; lia. }
  destruct (proj2 (details_table_keys (Z.log2 word))) as [label Hlabel]; [lia|].
  rewrite decodeBits_unfold in Hempty.
  refine (join_space_nonempty (set_labels word kSMBIOSMemoryDetailsTable)
            _ (details_set_labels_nonempty word) Hempty).
  assert (label ∈ set_labels word kSMBIOSMemoryDetailsTable) as Hin.
  { apply list_elem_of_omap. exists (Z.log2 word).
    split; [apply elem_of_seqZ; lia|].
    by rewrite Z.bit_log2 by lia. }
  intros Hnil. rewrite Hnil in Hin. by apply elem_of_nil in Hin.
Qed.

Lemma memory_type_details_empty_witness :
  dmiBitFieldToStr 0x2080 kSMBIOSMemoryDetailsTable = Done ""%string ↔
  0x2080 = 0.
Proof. apply (memory_type_details_empty 0x2080). lia. Defined.

(** * Further properties of the Memory Device decoder *)

Lemma lookup_assign_found_eq (found : option string) (k : string)
    (r : gmap string value) :
  assign_found k found r !! k
  = match found with Some second => Some (TEXT second) | None => r !! k end.
Proof. destruct found; [by apply lookup_insert_eq | done]. Qed.

(** The assignment of [size] leaves every other field as it is: from the
    run [Hsized] of that step, get [Hother]. *)
Ltac frame_size Hsized Hother :=
  lazymatch type of Hsized with
  | ?step = Done ?sized =>
      lazymatch step with
      | context [<["size" := INTEGER ?word]> ?r] =>
          assert (∀ k, k ≠ "size"%string → sized !! k = r !! k) as Hother;
          [ let k := fresh "k" in
            let Hk := fresh "Hk" in
            let H := fresh "H" in
            intros k Hk; pose proof Hsized as H;
            destruct (word =? 65535); cbn [negb] in H;
            [ | destruct (word =? 32767); cbn [negb] in H;
                [ apply bind_Done_inv in H as (? & _ & H) | ] ];
            apply Done_inj in H as <-; by rewrite ?lookup_insert_ne by done
          | ]
      end
  end.

Section MemoryDeviceFields.

Variables (mem : list byte) (index : nat) (hdr : SMBStructHeader).
Variables (address size : nat) (results results' : list (gmap string value)).

Hypothesis Hdecoded :
  genSMBIOSMemoryDevices mem index hdr address size results = Done results'.
Hypothesis Htype : hdr_type hdr = kSMBIOSTypeMemoryDevice.
Hypothesis Hsize : (0x12 ≤ size)%nat.

(** In the record decoded from a type-17 structure every numeric field
    other than [size] holds the raw word (for [set], the raw byte) read at
    its offset, unless that value is the sentinel of the field. *)
Theorem memory_device_numbers :
  ∃ (r : gmap string value)
    (total_width data_width set max_speed clock_speed : Z)
    (min_voltage max_voltage configured_voltage : Z),
    results' = results ++ [r] ∧
    dmiToWord mem address 0x08 = Done total_width ∧
    r !! "total_width"
    = (if total_width =? 0xFFFF then None else Some (INTEGER total_width)) ∧
    dmiToWord mem address 0x0A = Done data_width ∧
    r !! "data_width"
    = (if data_width =? 0xFFFF then None else Some (INTEGER data_width)) ∧
    peek mem address 0x0F = Done set ∧
    r !! "set" = (if set =? 0xFF then None else Some (INTEGER set)) ∧
    dmiToWord mem address 0x15 = Done max_speed ∧
    r !! "max_speed"
    = (if (max_speed =? 0) || (max_speed =? 0xFFFF) then None
       else Some (INTEGER max_speed)) ∧
    dmiToWord mem address 0x20 = Done clock_speed ∧
    r !! "configured_clock_speed"
    = (if (clock_speed =? 0) || (clock_speed =? 0xFFFF) then None
       else Some (INTEGER clock_speed)) ∧
    dmiToWord mem address 0x22 = Done min_voltage ∧
    r !! "min_voltage"
    = (if min_voltage =? 0 then None else Some (INTEGER min_voltage)) ∧
    dmiToWord mem address 0x24 = Done max_voltage ∧
    r !! "max_voltage"
    = (if max_voltage =? 0 then None else Some (INTEGER max_voltage)) ∧
    dmiToWord mem address 0x26 = Done configured_voltage ∧
    r !! "configured_voltage"
    = (if configured_voltage =? 0 then None
       else Some (INTEGER configured_voltage)).
Proof.
  pose proof Hdecoded as H. decode_inv H Htype Hsize.
  frame_size Hsized Hother.
  eexists _, total_width, data_width, set, max_speed, clock_speed,
    min_voltage, max_voltage, configured_voltage.
  split; [exact H|]. row_lookup.
  rewrite !Hother by done. row_lookup.
  repeat split; try done.
  - by destruct (total_width =? 65535).
  - by destruct (data_width =? 65535).
  - by destruct (set =? 255).
  - by destruct (max_speed =? 0), (max_speed =? 65535).
  - by destruct (clock_speed =? 0), (clock_speed =? 65535).
  - by destruct (min_voltage =? 0).
  - by destruct (max_voltage =? 0).
  - by destruct (configured_voltage =? 0).
Qed.

(** In the record decoded from a type-17 structure every text field comes
    from the component that produces it: the two handles are the
    hexadecimal text of the words at 0x02 and 0x04, [form_factor] and
    [memory_type] are the table entries of the bytes at 0x0E and 0x12 (absent
    when the table has none), the six strings are resolved from the index
    bytes against the data behind the formatted area, and
    [memory_type_details] is the decoded word at 0x13. *)
Theorem memory_device_texts :
  ∃ r : gmap string value,
    results' = results ++ [r] ∧
    (∃ word, dmiToWord mem address 0x02 = Done word ∧
             r !! "handle" = Some (TEXT (toHexStr word 4))) ∧
    (∃ word, dmiToWord mem address 0x04 = Done word ∧
             r !! "array_handle" = Some (TEXT (toHexStr word 4))) ∧
    (∃ code, peek mem address 0x0E = Done code ∧
             r !! "form_factor"
             = TEXT <$> kSMBIOSMemoryFormFactorTable !! code) ∧
    (∃ code, peek mem address 0x12 = Done code ∧
             r !! "memory_type" = TEXT <$> kSMBIOSMemoryTypeTable !! code) ∧
    (∃ word details,
        dmiToWord mem address 0x13 = Done word ∧
        dmiBitFieldToStr word kSMBIOSMemoryDetailsTable = Done details ∧
        r !! "memory_type_details" = Some (TEXT details)) ∧
    Forall (λ '(k, offset),
              ∃ text,
                dmiString mem (address + Z.to_nat (hdr_length hdr)) address
                  offset = Done text ∧
                r !! k = Some (TEXT text))
      [ ("device_locator", 0x10%nat); ("bank_locator", 0x11%nat);
        ("manufacturer", 0x17%nat); ("serial_number", 0x18%nat);
        ("asset_tag", 0x19%nat); ("part_number", 0x1A%nat) ]%string.
Proof.
  pose proof Hdecoded as H. decode_inv H Htype Hsize.
  frame_size Hsized Hother.
  unfold dmiWordToHexStr in Hhandle, Harray_handle.
  bind_inv Hhandle as word Hword.
  bind_inv Harray_handle as array_word Harray_word.
  apply Done_inj in Hhandle as <-. apply Done_inj in Harray_handle as <-.
  eexists. split; [exact H|].
  split; [exists word; split; [done|]; row_lookup;
          rewrite Hother by done; by row_lookup|].
  split; [exists array_word; split; [done|]; row_lookup;
          rewrite Hother by done; by row_lookup|].
  split; [exists form_factor; split; [done|]; row_lookup;
          rewrite Hother by done; rewrite !lookup_assign_if_ne by done;
          rewrite lookup_assign_found_eq;
          destruct (kSMBIOSMemoryFormFactorTable !! form_factor);
          [done | by row_lookup]|].
  split; [exists memory_type; split; [done|]; row_lookup;
          rewrite lookup_assign_found_eq;
          destruct (kSMBIOSMemoryTypeTable !! memory_type);
          [done | row_lookup; rewrite Hother by done; by row_lookup]|].
  split; [exists details_word, details; split; [done|]; split; [done|];
          by row_lookup|].
  repeat constructor; eexists; (split; [eassumption|]); by row_lookup.
Qed.

(** A Memory Device record never holds a field other than the twenty the
    decoder knows. *)
Theorem memory_device_keys :
  ∃ r : gmap string value,
    results' = results ++ [r] ∧
    ∀ k, is_Some (r !! k) → k ∈ memory_device_fields.
Proof.
  pose proof Hdecoded as H. decode_inv H Htype Hsize.
  frame_size Hsized Hother.
  eexists. split; [exact H|].
  intros k Hk. destruct (decide (k ∈ memory_device_fields)) as [|Hout]; [done|].
  exfalso. unfold memory_device_fields in Hout.
  repeat (apply not_elem_of_cons in Hout as [? Hout]).
  revert Hk. row_lookup. rewrite Hother by done. row_lookup.
  by intros [? ?].
Qed.

End MemoryDeviceFields.

(** ** Faults and success *)

Lemma bind_Fault_inv {A B} (m : outcome A) (k : A → outcome B) (f : fault) :
  (m ≫= k) = Fault f → m = Fault f ∨ ∃ a, m = Done a ∧ k a = Fault f.
Proof. destruct m as [a|f']; [eauto | intros [= ->]; by left]. Qed.

Lemma peek_fault (mem : list byte) (address offset : nat) (f : fault) :
  peek mem address offset = Fault f → f = OutOfBounds.
Proof. unfold peek. destruct (mem !! _); [done | by intros [= <-]]. Qed.

Lemma dmiToWord_fault (mem : list byte) (address offset : nat) (f : fault) :
  dmiToWord mem address offset = Fault f → f = OutOfBounds.
Proof.
  unfold dmiToWord. intros H.
  apply bind_Fault_inv in H as [H|(hi & _ & H)]; [by eapply peek_fault|].
  apply bind_Fault_inv in H as [H|(lo & _ & H)]; [by eapply peek_fault|done].
Qed.

Lemma dmiToDWord_fault (mem : list byte) (address offset : nat) (f : fault) :
  dmiToDWord mem address offset = Fault f → f = OutOfBounds.
Proof.
  unfold dmiToDWord. intros H.
  apply bind_Fault_inv in H as [H|(b3 & _ & H)]; [by eapply peek_fault|].
  apply bind_Fault_inv in H as [H|(b2 & _ & H)]; [by eapply peek_fault|].
  apply bind_Fault_inv in H as [H|(b1 & _ & H)]; [by eapply peek_fault|].
  apply bind_Fault_inv in H as [H|(b0 & _ & H)]; [by eapply peek_fault|done].
Qed.

Lemma dmiWordToHexStr_fault (mem : list byte) (address offset : nat)
    (f : fault) :
  dmiWordToHexStr mem address offset = Fault f → f = OutOfBounds.
Proof.
  unfold dmiWordToHexStr. intros H.
  apply bind_Fault_inv in H as [H|(w & _ & H)]; [by eapply dmiToWord_fault|done].
Qed.

Lemma dmiString_fault (mem : list byte) (data address offset : nat)
    (f : fault) :
  dmiString mem data address offset = Fault f → f = OutOfBounds.
Proof.
  unfold dmiString. intros H.
  apply bind_Fault_inv in H as [H|(index & Hindex & H)];
    [by eapply peek_fault|].
  destruct (index =? 0); [done|].
  apply bind_Fault_inv in H as [H|(bp & Hbp & H)].
  - pose proof (skip_strings_count (Z.to_nat index - 1) (drop data mem))
      as Hskip.
    destruct (Z.to_nat index) as [|k] eqn:Hk; [done|].
    replace (S k - 1)%nat with k in Hskip by lia.
    destruct (decide _); [by destruct Hskip as (? & Heq & _); rewrite Heq in H|].
    rewrite Hskip in H. by injection H.
  - apply bind_Fault_inv in H as [H|(str & _ & H)]; [|done].
    pose proof (c_str_count bp) as Hstr.
    destruct (count_nul bp); [|by destruct Hstr as (? & Heq & _); rewrite Heq in H].
    rewrite Hstr in H. by injection H.
Qed.

Lemma details_no_fault (word : Z) (f : fault) :
  dmiBitFieldToStr word kSMBIOSMemoryDetailsTable = Fault f → f = OutOfBounds.
Proof.
  by rewrite dmiBitFieldToStr_dense
    by (apply details_table_dense || (rewrite details_table_size; lia)).
Qed.

Create HintDb faults.
#[local] Hint Resolve peek_fault dmiToWord_fault dmiToDWord_fault
  dmiWordToHexStr_fault dmiString_fault details_no_fault : faults.

(** Follow a failed run [H] of the decoder to the read that failed. *)
Ltac fault_step H :=
  apply bind_Fault_inv in H as [H|(? & _ & H)];
  [solve [eauto with faults] | cbv beta in H].

(** The Memory Device decoder throws nothing: the lookups in its tables
    use [find], and every bit of the detail word has a label.  It can only
    fail by reading outside the buffer. *)
Theorem memory_device_faults (mem : list byte) (index : nat)
    (hdr : SMBStructHeader) (address size : nat)
    (results : list (gmap string value)) (f : fault) :
  genSMBIOSMemoryDevices mem index hdr address size results = Fault f →
  f = OutOfBounds.
Proof.
  unfold genSMBIOSMemoryDevices. intros H.
  destruct (negb _ || _); [done|].
  do 6 fault_step H.
  apply bind_Fault_inv in H as [H|(sized & _ & H)].
  { destruct (negb _); [|done]. destruct (negb _); [done|]. fault_step H. done. }
  cbv beta in H. do 15 fault_step H. done.
Qed.

Lemma memory_device_faults_witness : OutOfBounds = OutOfBounds.
Proof.
  apply (memory_device_faults truncated_mem 0 truncated_hdr 0 0x12 []).
  vm_compute. reflexivity.
Defined.

Lemma peek_ok (mem : list byte) (address offset : nat) :
  (address + offset < length mem)%nat → ∃ v, peek mem address offset = Done v.
Proof. intros H. destruct (peek_inside _ _ _ H) as (b & _ & ->). eauto. Qed.

Lemma dmiToWord_ok (mem : list byte) (address offset : nat) :
  (address + offset + 1 < length mem)%nat →
  ∃ w, dmiToWord mem address offset = Done w.
Proof. intros H. destruct (dmiToWord_inside _ _ _ H) as (w & -> & _). eauto. Qed.

Lemma dmiToDWord_ok (mem : list byte) (address offset : nat) :
  (address + offset + 3 < length mem)%nat →
  ∃ d, dmiToDWord mem address offset = Done d.
Proof.
  intros H. unfold dmiToDWord.
  destruct (peek_ok mem address (offset + 3)) as [b3 ->]; [lia|].
  destruct (peek_ok mem address (offset + 2)) as [b2 ->]; [lia|].
  destruct (peek_ok mem address (offset + 1)) as [b1 ->]; [lia|].
  destruct (peek_ok mem address offset) as [b0 ->]; [lia|].
  rewrite !bind_Done. eauto.
Qed.

Lemma dmiWordToHexStr_ok (mem : list byte) (address offset : nat) :
  (address + offset + 1 < length mem)%nat →
  ∃ text, dmiWordToHexStr mem address offset = Done text.
Proof.
  intros H. unfold dmiWordToHexStr.
  destruct (dmiToWord_ok _ _ _ H) as [w ->]. rewrite bind_Done. eauto.
Qed.

Lemma dmiString_ok (mem : list byte) (data address offset : nat) :
  (∃ k, peek mem address offset = Done (Z.of_nat k) ∧
        (k = 0%nat ∨ (k ≤ count_nul (drop data mem))%nat)) →
  ∃ text, dmiString mem data address offset = Done text.
Proof.
  intros (k & Hpeek & Hk).
  pose proof (dmiString_outcome mem data address offset k Hpeek) as Hout.
  by destruct (decide _).
Qed.

Lemma dmiString_Done_index (mem : list byte) (data address offset : nat)
    (text : string) :
  dmiString mem data address offset = Done text →
  ∃ k, peek mem address offset = Done (Z.of_nat k) ∧
       (k = 0%nat ∨ (k ≤ count_nul (drop data mem))%nat).
Proof.
  intros Htext. pose proof Htext as H. unfold dmiString in H.
  apply bind_Done_inv in H as (index & Hpeek & _).
  destruct (peek_Done_inv _ _ _ _ Hpeek) as [_ Hrange].
  exists (Z.to_nat index). rewrite Z2Nat.id by lia. split; [done|].
  rewrite <- (Z2Nat.id index) in Hpeek by lia.
  pose proof (dmiString_outcome mem data address offset _ Hpeek) as Hout.
  destruct (decide _); [done|]. by rewrite Hout in Htext.
Qed.

(** One read of the decoder succeeds: continue with what follows it. *)
Ltac ok_step :=
  lazymatch goal with
  | |- ∃ _, (?m ≫= _) = Done _ =>
      let H := fresh "H" in
      assert (∃ x, m = Done x) as [? H];
      [ first [ apply peek_ok; lia | apply dmiToWord_ok; lia
              | apply dmiWordToHexStr_ok; lia | by apply dmiString_ok ]
      | rewrite H, bind_Done; clear H ]
  end.

(** A type-17 structure with a span of at least 0x12 bytes is decoded
    without fault exactly when the 0x28 bytes from its start lie inside the
    buffer and each of its six string indices is 0 or at most the number of
    NUL bytes between the end of its formatted area and the end of the
    buffer. *)
Theorem memory_device_succeeds (mem : list byte) (index : nat)
    (hdr : SMBStructHeader) (address size : nat)
    (results : list (gmap string value)) :
  hdr_type hdr = kSMBIOSTypeMemoryDevice →
  (0x12 ≤ size)%nat →
  (∃ results',
     genSMBIOSMemoryDevices mem index hdr address size results
     = Done results') ↔
  (address + 0x28 ≤ length mem)%nat ∧
  Forall (λ offset,
            ∃ k, peek mem address offset = Done (Z.of_nat k) ∧
                 (k = 0%nat ∨
                  (k ≤ count_nul
                         (drop (address + Z.to_nat (hdr_length hdr)) mem))%nat))
    memory_device_string_offsets.
Proof.
  intros Htype Hsize. split.
  - intros [results' H]. decode_inv H Htype Hsize.
    apply dmiToWord_Done_inv in Hconfigured_voltage as [Hbound _].
    split; [lia|].
    repeat constructor; by eapply dmiString_Done_index.
  - intros [Hbound Hstrings]. unfold memory_device_string_offsets in Hstrings.
    apply Forall_cons in Hstrings as [H10 Hstrings].
    apply Forall_cons in Hstrings as [H11 Hstrings].
    apply Forall_cons in Hstrings as [H17 Hstrings].
    apply Forall_cons in Hstrings as [H18 Hstrings].
    apply Forall_cons in Hstrings as [H19 Hstrings].
    apply Forall_cons in Hstrings as [H1A _].
    unfold genSMBIOSMemoryDevices.
    rewrite Htype, Z.eqb_refl, (proj2 (Nat.ltb_ge _ _) Hsize).
    cbv beta iota delta [negb orb].
    do 6 ok_step.
    lazymatch goal with
    | |- ∃ _, (?m ≫= _) = Done _ =>
        assert (∃ sized, m = Done sized) as [sized ->]
    end.
    { destruct (_ =? 65535); [by eexists|].
      destruct (_ =? 32767); [|by eexists].
      destruct (dmiToDWord_ok mem address 28) as [d ->]; [lia|].
      rewrite bind_Done. by eexists. }
    rewrite bind_Done. do 5 ok_step.
    rewrite dmiBitFieldToStr_dense, bind_Done
      by (apply details_table_dense || (rewrite details_table_size; lia)).
    do 9 ok_step. by eexists.
Qed.

Lemma memory_device_succeeds_witness :
  (∃ results',
     genSMBIOSMemoryDevices extended_mem 0 extended_hdr 0 59 []
     = Done results') ↔
  (0 + 0x28 ≤ length extended_mem)%nat ∧
  Forall (λ offset,
            ∃ k, peek extended_mem 0 offset = Done (Z.of_nat k) ∧
                 (k = 0%nat ∨
                  (k ≤ count_nul
                         (drop (0 + Z.to_nat (hdr_length extended_hdr))
                            extended_mem))%nat))
    memory_device_string_offsets.
Proof.
  apply (memory_device_succeeds extended_mem 0 extended_hdr 0 59 []).
  - reflexivity.
  - lia.
Defined.

(** * Properties of the generic summary decoder *)

Lemma description_lookup (type : Z) :
  (if bool_decide (is_Some (kSMBIOSTypeDescriptions !! type))
   then map_at kSMBIOSTypeDescriptions type
   else Done "Unknown"%string)
  = Done (default "Unknown"%string (kSMBIOSTypeDescriptions !! type)).
Proof.
  unfold map_at. destruct (kSMBIOSTypeDescriptions !! type) as [label|].
  - by rewrite bool_decide_eq_true_2 by eauto.
  - by rewrite bool_decide_eq_false_2 by (by intros [? ?]).
Qed.

Lemma genSMBIOSTable_inside (hashFromBuffer : list byte → string)
    (mem : list byte) (index : nat) (hdr : SMBStructHeader)
    (address size : nat) (results : list (gmap string value)) :
  (address + size ≤ length mem)%nat →
  ∃ r : gmap string value,
    genSMBIOSTable hashFromBuffer mem index hdr address size results
    = Done (results ++ [r]) ∧
    r !! "number" = Some (INTEGER (Z.of_nat index)) ∧
    r !! "type" = Some (INTEGER (hdr_type hdr)) ∧
    r !! "description"
    = Some (TEXT (default "Unknown"%string
                    (kSMBIOSTypeDescriptions !! hdr_type hdr))) ∧
    r !! "handle" = Some (INTEGER (hdr_handle hdr)) ∧
    r !! "header_size" = Some (INTEGER (hdr_length hdr)) ∧
    r !! "size" = Some (INTEGER (Z.of_nat size)) ∧
    r !! "md5"
    = Some (TEXT (hashFromBuffer (take size (drop address mem)))) ∧
    ∀ k, is_Some (r !! k) → k ∈ summary_fields.
Proof.
  intros Hinside. unfold genSMBIOSTable, buffer_at, BIGINT.
  rewrite description_lookup, bind_Done.
  rewrite (proj2 (Nat.leb_le _ _) Hinside), orb_true_r, bind_Done.
  eexists. split; [reflexivity|].
  repeat (split; [by rewrite ?lookup_insert_ne by done;
                     rewrite lookup_insert_eq|]).
  intros k Hk.
  destruct (decide (k ∈ summary_fields)) as [|Hout]; [done|]. exfalso.
  unfold summary_fields in Hout.
  repeat (apply not_elem_of_cons in Hout as [? Hout]).
  rewrite !lookup_insert_ne, lookup_empty in Hk by done. by destruct Hk.
Qed.

(** The generic summary decoder throws nothing (its table lookup is
    guarded by [count]); it fails only when the span it is to hash reaches
    outside the buffer.  For a span inside the buffer it appends one record
    of exactly seven fields, whose description is the table entry of the
    type, or [Unknown] when the table has none. *)
Theorem genSMBIOSTable_record (hashFromBuffer : list byte → string)
    (mem : list byte) (index : nat) (hdr : SMBStructHeader)
    (address size : nat) (results : list (gmap string value)) :
  (∀ f, genSMBIOSTable hashFromBuffer mem index hdr address size results
        = Fault f →
        f = OutOfBounds ∧ (length mem < address + size)%nat) ∧
  ((address + size ≤ length mem)%nat →
   ∃ r : gmap string value,
     genSMBIOSTable hashFromBuffer mem index hdr address size results
     = Done (results ++ [r]) ∧
     (∀ k, is_Some (r !! k) ↔ k ∈ summary_fields) ∧
     r !! "description"
     = Some (TEXT (default "Unknown"%string
                     (kSMBIOSTypeDescriptions !! hdr_type hdr))) ∧
     r !! "md5"
     = Some (TEXT (hashFromBuffer (take size (drop address mem))))).
Proof.
  split.
  - intros f. unfold genSMBIOSTable, buffer_at.
    rewrite description_lookup, bind_Done.
    destruct (Nat.leb_spec (address + size) (length mem));
      [by rewrite orb_true_r|].
    rewrite orb_false_r. destruct (size =? 0)%nat; [done|].
    by intros [= <-].
  - intros Hinside.
    destruct (genSMBIOSTable_inside hashFromBuffer mem index hdr address size
                results Hinside)
      as (r & Hr & Hnumber & Htype & Hdescription & Hhandle & Hheader
          & Hsize & Hmd5 & Hkeys).
    exists r. split; [done|]. split; [|done].
    intros k. split; [apply Hkeys|].
    unfold summary_fields. intros Hk.
    repeat (apply elem_of_cons in Hk as [->|Hk]; [by eexists|]).
    by apply elem_of_nil in Hk.
Qed.

(** The summary decoder run over the output of the walker. *)
Lemma for_each_summary (hashFromBuffer : list byte → string)
    (mem : list byte) (table index : nat) (l : list tuple) :
  chain mem table index l →
  ∀ results : list (gmap string value),
    ∃ rows,
      for_each_table (genSMBIOSTable hashFromBuffer mem) l results
      = Done (results ++ rows) ∧
      length rows = length l ∧
      ∀ i t, l !! i = Some t →
        ∃ r : gmap string value,
          rows !! i = Some r ∧
          r !! "number" = Some (INTEGER (Z.of_nat (index + i))) ∧
          r !! "type" = Some (INTEGER (hdr_type (t_hdr t))) ∧
          r !! "header_size" = Some (INTEGER (hdr_length (t_hdr t))) ∧
          r !! "size" = Some (INTEGER (Z.of_nat (t_size t))) ∧
          r !! "md5" = Some (TEXT (hashFromBuffer (span_bytes mem t))).
Proof.
  induction 1 as [|table index header len rest Hhdr Hpad Hlen Hpos Hend Hrest
                    IH]; intros results.
  - exists []. rewrite app_nil_r. by repeat split.
  - cbn [for_each_table t_index t_hdr t_address t_size].
    destruct (genSMBIOSTable_inside hashFromBuffer mem index header table len
                results Hend)
      as (r & -> & Hnumber & Htype & _ & _ & Hheader & Hsize & Hmd5 & _).
    rewrite bind_Done.
    destruct (IH (results ++ [r])) as (rows & -> & Hrows & Heach).
    exists (r :: rows). rewrite <- app_assoc. split; [done|].
    split; [cbn; by rewrite Hrows|].
    intros [|i] t; cbn.
    + intros [= <-]. exists r. rewrite Nat.add_0_r. by repeat split.
    + intros Ht. destruct (Heach i t Ht) as (r' & ? & Hn & ?).
      exists r'. split; [done|].
      by replace (index + S i)%nat with (S index + i)%nat by lia.
Qed.

(** For every buffer, the summary decoder called back by the walker never
    fails: it makes one record per emitted structure, in order, numbered
    from 0, with the header's type and length, the length of the span and
    the digest of exactly the bytes of the span. *)
Theorem summary_of_tables (hashFromBuffer : list byte → string)
    (mem : list byte) :
  ∃ (l : list tuple) (rows : list (gmap string value)),
    tables {| table_data_ := Some mem |} = Done l ∧
    for_each_table (genSMBIOSTable hashFromBuffer mem) l [] = Done rows ∧
    length rows = length l ∧
    ∀ i t, l !! i = Some t →
      ∃ r : gmap string value,
        rows !! i = Some r ∧
        r !! "number" = Some (INTEGER (Z.of_nat i)) ∧
        r !! "type" = Some (INTEGER (hdr_type (t_hdr t))) ∧
        r !! "header_size" = Some (INTEGER (hdr_length (t_hdr t))) ∧
        r !! "size" = Some (INTEGER (Z.of_nat (t_size t))) ∧
        r !! "md5" = Some (TEXT (hashFromBuffer (span_bytes mem t))).
Proof.
  destruct (tables_chain {| table_data_ := Some mem |}) as (l & Hl & Hchain).
  cbn in Hchain.
  destruct (for_each_summary hashFromBuffer mem 0 0 l Hchain [])
    as (rows & Hrows & Hlen & Heach).
  by exists l, rows.
Qed.

Lemma memory_device_appends (mem : list byte) (index : nat)
    (hdr : SMBStructHeader) (address size : nat)
    (results results' : list (gmap string value)) :
  genSMBIOSMemoryDevices mem index hdr address size results = Done results' →
  length results'
  = (length results
     + if (hdr_type hdr =? kSMBIOSTypeMemoryDevice)%Z && (0x12 <=? size)
       then 1 else 0)%nat ∧
  take (length results) results' = results.
Proof.
  intros H.
  destruct (Z.eqb_spec (hdr_type hdr) kSMBIOSTypeMemoryDevice) as [Htype|Htype];
    [destruct (Nat.leb_spec 0x12 size) as [Hsize|Hsize]|]; cbn [andb].
  - decode_inv H Htype Hsize. rewrite H, length_app, take_app_length.
    split; [cbn; lia | done].
  - unfold genSMBIOSMemoryDevices in H.
    rewrite (proj2 (Nat.ltb_lt _ _) Hsize), orb_true_r in H.
    apply Done_inj in H as <-. rewrite firstn_all. split; [lia | done].
  - unfold genSMBIOSMemoryDevices in H.
    rewrite (proj2 (Z.eqb_neq _ _) Htype) in H. cbn [negb orb] in H.
    apply Done_inj in H as <-. rewrite firstn_all. split; [lia | done].
Qed.

(** When the Memory Device decoder, called back for a list of structures,
    gets through without fault, it has kept the results it started from and
    added one record for each structure of type 17 with a span of at least
    0x12 bytes, and none for any other structure. *)
Theorem memory_devices_of_tables (mem : list byte) (l : list tuple)
    (results results' : list (gmap string value)) :
  for_each_table (genSMBIOSMemoryDevices mem) l results = Done results' →
  length results'
  = (length results + length (filter (λ t, is_memory_device t = true) l))%nat ∧
  take (length results) results' = results.
Proof.
  revert results. induction l as [|t l IH]; intros results H.
  - apply Done_inj in H as <-. cbn. rewrite firstn_all. split; [lia | done].
  - cbn [for_each_table] in H.
    apply bind_Done_inv in H as (results1 & Hone & H).
    apply memory_device_appends in Hone as [Hlen1 Htake1].
    apply IH in H as [Hlen Htake].
    fold (is_memory_device t) in Hlen1. rewrite filter_cons.
    split.
    + destruct (is_memory_device t) eqn:Hdevice;
        [rewrite decide_True by done | rewrite decide_False by done];
        cbn; lia.
    + transitivity (take (length results) (take (length results1) results'));
        [rewrite take_take; f_equal; lia | by rewrite Htake].
Qed.

(** * The decoders on the worked buffers *)

Lemma extended_devices :
  for_each_table (genSMBIOSMemoryDevices extended_mem)
    [ {| t_index := 0; t_hdr := extended_hdr; t_address := 0; t_size := 59 |};
      {| t_index := 1;
         t_hdr := {| hdr_type := 127; hdr_length := 4; hdr_handle := 2 |};
         t_address := 59; t_size := 4 |} ] []
  = Done [extended_row].
Proof. vm_cast_no_check (eq_refl (Done [extended_row])). Qed.

Lemma memory_device_numbers_witness :
  ∃ (r : gmap string value)
    (total_width data_width set max_speed clock_speed : Z)
    (min_voltage max_voltage configured_voltage : Z),
    [extended_row] = [] ++ [r] ∧
    dmiToWord extended_mem 0 0x08 = Done total_width ∧
    r !! "total_width"
    = (if total_width =? 0xFFFF then None else Some (INTEGER total_width)) ∧
    dmiToWord extended_mem 0 0x0A = Done data_width ∧
    r !! "data_width"
    = (if data_width =? 0xFFFF then None else Some (INTEGER data_width)) ∧
    peek extended_mem 0 0x0F = Done set ∧
    r !! "set" = (if set =? 0xFF then None else Some (INTEGER set)) ∧
    dmiToWord extended_mem 0 0x15 = Done max_speed ∧
    r !! "max_speed"
    = (if (max_speed =? 0) || (max_speed =? 0xFFFF) then None
       else Some (INTEGER max_speed)) ∧
    dmiToWord extended_mem 0 0x20 = Done clock_speed ∧
    r !! "configured_clock_speed"
    = (if (clock_speed =? 0) || (clock_speed =? 0xFFFF) then None
       else Some (INTEGER clock_speed)) ∧
    dmiToWord extended_mem 0 0x22 = Done min_voltage ∧
    r !! "min_voltage"
    = (if min_voltage =? 0 then None else Some (INTEGER min_voltage)) ∧
    dmiToWord extended_mem 0 0x24 = Done max_voltage ∧
    r !! "max_voltage"
    = (if max_voltage =? 0 then None else Some (INTEGER max_voltage)) ∧
    dmiToWord extended_mem 0 0x26 = Done configured_voltage ∧
    r !! "configured_voltage"
    = (if configured_voltage =? 0 then None
       else Some (INTEGER configured_voltage)).
Proof.
  apply (memory_device_numbers extended_mem 0 extended_hdr 0 59 []
           [extended_row]).
  - exact extended_decode.
  - reflexivity.
  - lia.
Defined.

Lemma memory_device_texts_witness :
  ∃ r : gmap string value,
    [extended_row] = [] ++ [r] ∧
    (∃ word, dmiToWord extended_mem 0 0x02 = Done word ∧
             r !! "handle" = Some (TEXT (toHexStr word 4))) ∧
    (∃ word, dmiToWord extended_mem 0 0x04 = Done word ∧
             r !! "array_handle" = Some (TEXT (toHexStr word 4))) ∧
    (∃ code, peek extended_mem 0 0x0E = Done code ∧
             r !! "form_factor"
             = TEXT <$> kSMBIOSMemoryFormFactorTable !! code) ∧
    (∃ code, peek extended_mem 0 0x12 = Done code ∧
             r !! "memory_type" = TEXT <$> kSMBIOSMemoryTypeTable !! code) ∧
    (∃ word details,
        dmiToWord extended_mem 0 0x13 = Done word ∧
        dmiBitFieldToStr word kSMBIOSMemoryDetailsTable = Done details ∧
        r !! "memory_type_details" = Some (TEXT details)) ∧
    Forall (λ '(k, offset),
              ∃ text,
                dmiString extended_mem
                  (0 + Z.to_nat (hdr_length extended_hdr)) 0 offset
                = Done text ∧
                r !! k = Some (TEXT text))
      [ ("device_locator", 0x10%nat); ("bank_locator", 0x11%nat);
        ("manufacturer", 0x17%nat); ("serial_number", 0x18%nat);
        ("asset_tag", 0x19%nat); ("part_number", 0x1A%nat) ]%string.
Proof.
  apply (memory_device_texts extended_mem 0 extended_hdr 0 59 []
           [extended_row]).
  - exact extended_decode.
  - reflexivity.
  - lia.
Defined.

Lemma memory_device_keys_witness :
  ∃ r : gmap string value,
    [extended_row] = [] ++ [r] ∧
    ∀ k, is_Some (r !! k) → k ∈ memory_device_fields.
Proof.
  apply (memory_device_keys extended_mem 0 extended_hdr 0 59 []
           [extended_row]).
  - exact extended_decode.
  - reflexivity.
  - lia.
Defined.

Lemma memory_devices_of_tables_witness :
  length [extended_row]
  = (length (@nil (gmap string value))
     + length
         (filter (λ t, is_memory_device t = true)
            [ {| t_index := 0; t_hdr := extended_hdr; t_address := 0;
                 t_size := 59 |};
              {| t_index := 1;
                 t_hdr := {| hdr_type := 127; hdr_length := 4;
                             hdr_handle := 2 |};
                 t_address := 59; t_size := 4 |} ]))%nat ∧
  take (length (@nil (gmap string value))) [extended_row] = [].
Proof.
  apply (memory_devices_of_tables extended_mem).
  exact extended_devices.
Defined.
